(** * AudioManager (src/utils/audio-manager.js): microphone capture session

    A shallow embedding of the [AudioManager] class of Hubs and the
    properties of its device / stream negotiation that the specification
    states.  The class is event driven: every method is an [async] function
    that runs against three collaborators (the browser's [mediaDevices], the
    settings store and the scene's audio system).  The embedding threads one
    [World] through the methods: the fields of the manager, the part of the
    store the class reads and writes, the objects of the JavaScript heap the
    class shares with its callers, the capture tracks the browser has handed
    out, and the trace of every call made on a collaborator.
    What a collaborator answers (the outcome of [getUserMedia], the list of
    [enumerateDevices]) is an argument of the method that awaits it.

    The methods are given whole, as they run when nothing overlaps them, and
    [fetchAudioTrack] and [selectMicDevice] also split at the [await] of
    their capture.  The reachable worlds are those of serialised calls, where
    a method runs to its [return] before the next event is handled; calls
    that overlap are looked at through the split methods. *)

From Stdlib Require Import String Ascii List Bool Arith Lia.
From stdpp Require Import base list strings.
Import ListNotations.
Local Open Scope string_scope.
Local Open Scope list_scope.

(** ** Regular expressions of the module

    The module uses four regular-expression literals, [/Firefox/],
    [/Oculus/], [/\Wvive\W/i] and [/\Wrift\W/i].  All are sequences of
    one-character atoms: a literal character or the class [\W].  Strings are
    sequences of bytes here; every byte above 127 is a non-word character and
    is not case-folded, which is what ECMAScript does with the code units of
    a non-ASCII character when the [u] flag is absent. *)
Module Regex.

Inductive atom : Type :=
| Chr (c : ascii)      (* a pattern character *)
| NonWord.             (* \W : anything but [A-Za-z0-9_] *)

Record t : Type := mk { atoms : list atom; ignoreCase : bool }.

Definition between (lo hi : nat) (c : ascii) : bool :=
  ((lo <=? nat_of_ascii c)%nat && (nat_of_ascii c <=? hi)%nat)%bool.

Definition is_lower (c : ascii) : bool := between 97 122 c.
Definition is_upper (c : ascii) : bool := between 65 90 c.
Definition is_digit (c : ascii) : bool := between 48 57 c.

(** The word characters of [\w]. *)
Definition is_word (c : ascii) : bool :=
  is_lower c || is_upper c || is_digit c || Ascii.eqb c "_"%char.

(** Canonicalize of ECMAScript for the [i] flag: upper-casing. *)
Definition canonicalize (c : ascii) : ascii :=
  if is_lower c then ascii_of_nat (nat_of_ascii c - 32) else c.

Definition atom_matches (ic : bool) (a : atom) (c : ascii) : bool :=
  match a with
  | Chr p => if ic then Ascii.eqb (canonicalize p) (canonicalize c)
             else Ascii.eqb p c
  | NonWord => negb (is_word c)
  end.

(** The atoms match a prefix of [s]. *)
Fixpoint match_here (ic : bool) (pat : list atom) (s : string) : bool :=
  match pat with
  | [] => true
  | a :: pat' =>
      match s with
      | EmptyString => false
      | String c s' => atom_matches ic a c && match_here ic pat' s'
      end
  end.

(** The atoms match at some position of [s]. *)
Fixpoint search (ic : bool) (pat : list atom) (s : string) : bool :=
  match_here ic pat s ||
  match s with
  | EmptyString => false
  | String _ s' => search ic pat s'
  end.

(** [r.test(s)], and the truth value of [s.match(r)]. *)
Definition test (r : t) (s : string) : bool :=
  search (ignoreCase r) (atoms r) s.

Definition lit (s : string) : list atom := map Chr (list_ascii_of_string s).

End Regex.

(** ** Platform: the module-level constants and [navigator.userAgent] *)

Record Platform : Type := {
  isMobile : bool;        (* AFRAME.utils.device.isMobile() *)
  isMobileVR : bool;      (* AFRAME.utils.device.isMobileVR() *)
  userAgent : string      (* navigator.userAgent *)
}.

Definition re_Firefox : Regex.t := Regex.mk (Regex.lit "Firefox") false.
Definition re_Oculus : Regex.t := Regex.mk (Regex.lit "Oculus") false.

(** [const isFirefoxReality = isMobileVR && navigator.userAgent.match(/Firefox/)] *)
Definition isFirefoxReality (pf : Platform) : bool :=
  isMobileVR pf && Regex.test re_Firefox (userAgent pf).

(** [/Oculus/.test(navigator.userAgent)] *)
Definition isOculusBrowser (pf : Platform) : bool :=
  Regex.test re_Oculus (userAgent pf).

(** [const HMD_MIC_REGEXES = [/\Wvive\W/i, /\Wrift\W/i]] *)
Definition HMD_MIC_REGEXES : list Regex.t :=
  [ Regex.mk (Regex.NonWord :: Regex.lit "vive" ++ [Regex.NonWord]) true;
    Regex.mk (Regex.NonWord :: Regex.lit "rift" ++ [Regex.NonWord]) true ].

(** ** Data *)

(** An entry of [enumerateDevices()]. *)
Inductive MediaDeviceKind : Type := audioinput | audiooutput | videoinput.

Record MediaDeviceInfo : Type := {
  d_deviceId : string;
  d_kind : MediaDeviceKind;
  d_label : string
}.

(** An entry of [micDevices]: [{ value, label }]. *)
Record MicDevice : Type := { value : string; label : string }.

(** The [deviceId] clause of the [audio] constraints: absent,
    [{ exact: [id] }] or [{ ideal: id }]. *)
Inductive DeviceClause : Type :=
| NoDeviceClause
| Exact (ids : list string)
| Ideal (id : string).

(** A constraints object [{ audio: { deviceId, echoCancellation,
    noiseSuppression, autoGainControl } }]; [None] is an absent property. *)
Record Constraints : Type := {
  c_deviceId : DeviceClause;
  echoCancellation : option bool;
  noiseSuppression : option bool;
  autoGainControl : option bool
}.

(** The literal [{ audio: {} }]. *)
Definition audio_empty : Constraints :=
  {| c_deviceId := NoDeviceClause; echoCancellation := None;
     noiseSuppression := None; autoGainControl := None |}.

(** A reference to a constraints object of the heap: its index. *)
Abbreviation loc := nat.

(** A [MediaStreamTrack]: its identity and its (read-only) label. *)
Record MediaStreamTrack : Type := { track_id : nat; track_label : string }.

(** What the browser knows of a track it handed out: whether it is still
    capturing, and the [{ once: true }] listener of "ended" with the
    constraints object its closure captured. *)
Record TrackState : Type := {
  live : bool;
  ended_once : option loc
}.

(** A [MediaStream] the manager can refer to: the stream of a capture, or the
    mixed stream [audioSystem.outboundStream]. *)
Inductive MediaStream : Type :=
| CaptureStream (t : MediaStreamTrack)
| OutboundStream.

(** [store.state.preferences]: each flag is absent, [true] or [false]. *)
Record Preferences : Type := {
  disableEchoCancellation : option bool;
  disableNoiseSuppression : option bool;
  disableAutoGainControl : option bool
}.

(** How [getUserMedia] ends. *)
Inductive CaptureError : Type := NotAllowedError | NotFoundError | NotReadableError.

Inductive CaptureResult : Type :=
| Granted (label : string)        (* resolves: a stream with one audio track *)
| Rejected (e : CaptureError).

Inductive LogLevel : Type := log_info | log_warn | log_error.

(** The [state] object that [shouldShowHmdMicWarning] reads
    ([this.state.enterInVR], [this.state.micDevices]). *)
Record HostState : Type := {
  enterInVR : bool;
  state_micDevices : list MicDevice
}.

(** Calls on the collaborators and what the platform does to a track. *)
Inductive Event : Type :=
| EvStop (t : MediaStreamTrack)                     (* track.stop() *)
| EvUpdatePreferences (p : Preferences)             (* store.update({preferences}) *)
| EvUpdateSettings (lastUsed : string)              (* store.update({settings}) *)
| EvGetUserMedia (l : loc) (c : Constraints)        (* getUserMedia(constraints) *)
| EvCaptured (t : MediaStreamTrack)                 (* ... resolved with a stream *)
| EvAddStreamToOutboundAudio (channel : string) (s : MediaStream)
| EvAddEndedListener (t : MediaStreamTrack) (l : loc)
| EvEmit (name : string)                            (* scene.emit(name) *)
| EvEnumerateDevices
| EvEnded (t : MediaStreamTrack)                    (* the platform ended the track *)
| EvConsole (lvl : LogLevel) (msg : string).

Record World : Type := {
  (* fields of the AudioManager *)
  micDevices : list MicDevice;
  deviceId : option string;
  audioTrack : option MediaStreamTrack;     (* null and undefined are None *)
  mediaStream : option MediaStream;
  state : option HostState;                 (* never assigned by the class *)
  (* store.state *)
  preferences : Preferences;
  lastUsedMicDeviceId : option string;      (* settings.lastUsedMicDeviceId *)
  (* the platform *)
  heap : list Constraints;                  (* constraints objects, by reference *)
  tracks : list TrackState;                 (* by track_id *)
  trace : list Event                        (* newest event first *)
}.

Definition with_micDevices (v : list MicDevice) (w : World) : World :=
  {| micDevices := v; deviceId := deviceId w; audioTrack := audioTrack w;
     mediaStream := mediaStream w; state := state w;
     preferences := preferences w; lastUsedMicDeviceId := lastUsedMicDeviceId w;
     heap := heap w; tracks := tracks w; trace := trace w |}.

Definition with_audioTrack (v : option MediaStreamTrack) (w : World) : World :=
  {| micDevices := micDevices w; deviceId := deviceId w; audioTrack := v;
     mediaStream := mediaStream w; state := state w;
     preferences := preferences w; lastUsedMicDeviceId := lastUsedMicDeviceId w;
     heap := heap w; tracks := tracks w; trace := trace w |}.

Definition with_mediaStream (v : option MediaStream) (w : World) : World :=
  {| micDevices := micDevices w; deviceId := deviceId w; audioTrack := audioTrack w;
     mediaStream := v; state := state w;
     preferences := preferences w; lastUsedMicDeviceId := lastUsedMicDeviceId w;
     heap := heap w; tracks := tracks w; trace := trace w |}.

Definition with_state (v : option HostState) (w : World) : World :=
  {| micDevices := micDevices w; deviceId := deviceId w; audioTrack := audioTrack w;
     mediaStream := mediaStream w; state := v;
     preferences := preferences w; lastUsedMicDeviceId := lastUsedMicDeviceId w;
     heap := heap w; tracks := tracks w; trace := trace w |}.

Definition with_preferences (v : Preferences) (w : World) : World :=
  {| micDevices := micDevices w; deviceId := deviceId w; audioTrack := audioTrack w;
     mediaStream := mediaStream w; state := state w;
     preferences := v; lastUsedMicDeviceId := lastUsedMicDeviceId w;
     heap := heap w; tracks := tracks w; trace := trace w |}.

Definition with_lastUsedMicDeviceId (v : option string) (w : World) : World :=
  {| micDevices := micDevices w; deviceId := deviceId w; audioTrack := audioTrack w;
     mediaStream := mediaStream w; state := state w;
     preferences := preferences w; lastUsedMicDeviceId := v;
     heap := heap w; tracks := tracks w; trace := trace w |}.

Definition with_heap (v : list Constraints) (w : World) : World :=
  {| micDevices := micDevices w; deviceId := deviceId w; audioTrack := audioTrack w;
     mediaStream := mediaStream w; state := state w;
     preferences := preferences w; lastUsedMicDeviceId := lastUsedMicDeviceId w;
     heap := v; tracks := tracks w; trace := trace w |}.

Definition with_tracks (v : list TrackState) (w : World) : World :=
  {| micDevices := micDevices w; deviceId := deviceId w; audioTrack := audioTrack w;
     mediaStream := mediaStream w; state := state w;
     preferences := preferences w; lastUsedMicDeviceId := lastUsedMicDeviceId w;
     heap := heap w; tracks := v; trace := trace w |}.

Definition with_trace (v : list Event) (w : World) : World :=
  {| micDevices := micDevices w; deviceId := deviceId w; audioTrack := audioTrack w;
     mediaStream := mediaStream w; state := state w;
     preferences := preferences w; lastUsedMicDeviceId := lastUsedMicDeviceId w;
     heap := heap w; tracks := tracks w; trace := v |}.

(** ** The monad of the methods: the world is threaded through *)

Definition M (A : Type) : Type := World -> A * World.

#[global] Instance M_ret : MRet M := fun A a w => (a, w).
#[global] Instance M_bind : MBind M :=
  fun A B k m w => let (a, w') := m w in k a w'.

Definition gets {A : Type} (f : World -> A) : M A := fun w => (f w, w).
Definition modify (f : World -> World) : M unit := fun w => (tt, f w).
Definition skip : M unit := mret tt.

(** Record a call in the trace. *)
Definition emit (e : Event) : M unit :=
  modify (fun w => with_trace (e :: trace w) w).

(** *** JavaScript values *)

(** [x === true] and [x === false] on a flag that may be absent. *)
Definition strictly_true (x : option bool) : bool :=
  match x with Some true => true | _ => false end.
Definition strictly_false (x : option bool) : bool :=
  match x with Some false => true | _ => false end.

(** [!x] on a property that may be absent. *)
Definition js_not (x : option bool) : bool :=
  match x with Some b => negb b | None => true end.

(** Truthiness of a string that may be undefined. *)
Definition truthy (x : option string) : bool :=
  match x with Some s => negb (String.eqb s "") | None => false end.

(** *** The heap of constraints objects *)

(** An object literal: a new object, and its reference. *)
Definition alloc (c : Constraints) : M loc :=
  fun w => (length (heap w), with_heap (heap w ++ [c]) w).

(** Reading through a reference.  References do not dangle in JavaScript
    and the methods are only given references to objects of the heap; an
    index past the heap reads as the empty object, and a write to it is
    lost. *)
Definition deref (l : loc) : M Constraints :=
  gets (fun w => default audio_empty (heap w !! l)).

(** [constraints.audio.<field> = v] *)
Definition assign (l : loc) (f : Constraints -> Constraints) : M unit :=
  modify (fun w => with_heap (alter f l (heap w)) w).

Definition set_echoCancellation (v : bool) (c : Constraints) : Constraints :=
  {| c_deviceId := c_deviceId c; echoCancellation := Some v;
     noiseSuppression := noiseSuppression c; autoGainControl := autoGainControl c |}.
Definition set_noiseSuppression (v : bool) (c : Constraints) : Constraints :=
  {| c_deviceId := c_deviceId c; echoCancellation := echoCancellation c;
     noiseSuppression := Some v; autoGainControl := autoGainControl c |}.
Definition set_autoGainControl (v : bool) (c : Constraints) : Constraints :=
  {| c_deviceId := c_deviceId c; echoCancellation := echoCancellation c;
     noiseSuppression := noiseSuppression c; autoGainControl := Some v |}.

(** *** The collaborators *)

Definition set_live (b : bool) (st : TrackState) : TrackState :=
  {| live := b; ended_once := ended_once st |}.
Definition set_ended_once (h : option loc) (st : TrackState) : TrackState :=
  {| live := live st; ended_once := h |}.

(** [track.stop()]: the capture is released; no "ended" event is fired. *)
Definition track_stop (t : MediaStreamTrack) : M unit :=
  emit (EvStop t);;
  modify (fun w => with_tracks (alter (set_live false) (track_id t) (tracks w)) w).

(** [track.addEventListener("ended", recreateAudioStream, { once: true })],
    where the closure [recreateAudioStream] has captured [constraints]. *)
Definition addEndedListener (t : MediaStreamTrack) (constraints : loc) : M unit :=
  emit (EvAddEndedListener t constraints);;
  modify (fun w =>
    with_tracks (alter (set_ended_once (Some constraints)) (track_id t) (tracks w)) w).

(** [await navigator.mediaDevices.getUserMedia(constraints)], ending as [r]
    says.  A granted capture is a new stream with one new, live audio track:
    [newStream.getAudioTracks()[0]]. *)
Definition getUserMedia (constraints : loc) (r : CaptureResult)
  : M (MediaStreamTrack + CaptureError) :=
  c ← deref constraints;
  emit (EvGetUserMedia constraints c);;
  match r with
  | Granted lbl =>
      n ← gets (fun w => length (tracks w));
      let t := {| track_id := n; track_label := lbl |} in
      modify (fun w =>
        with_tracks (tracks w ++ [{| live := true; ended_once := None |}]) w);;
      emit (EvCaptured t);;
      mret (inl t)
  | Rejected e => mret (inr e)
  end.

(** [await navigator.mediaDevices.enumerateDevices()] *)
Definition enumerateDevices (devs : list MediaDeviceInfo) : M (list MediaDeviceInfo) :=
  emit EvEnumerateDevices;; mret devs.

(** Modelled from the spec: the mixing subsystem of the scene, whose code is
    not in audio-manager.js.  [audioSystem.addStreamToOutboundAudio(channel,
    stream)] attaches a raw stream under a channel name, and
    [audioSystem.outboundStream] is the one mixed stream, [OutboundStream]. *)
Definition addStreamToOutboundAudio (channel : string) (s : MediaStream) : M unit :=
  emit (EvAddStreamToOutboundAudio channel s).

(** [this._scene.emit(name)] *)
Definition scene_emit (name : string) : M unit := emit (EvEmit name).

Definition console (lvl : LogLevel) (msg : string) : M unit := emit (EvConsole lvl msg).

(** Modelled from the spec: the settings store's [update], whose code is not
    in audio-manager.js.  It is a merge write of the patch into the stored
    state; the patch of [fetchAudioTrack] names the three flags. *)
Definition store_update_preferences (p : Preferences) : M unit :=
  emit (EvUpdatePreferences p);;
  modify (with_preferences p).

(** Modelled from the spec: the settings store's [update] with the patch
    [{ settings: { lastUsedMicDeviceId } }]. *)
Definition store_update_settings (id : string) : M unit :=
  emit (EvUpdateSettings id);;
  modify (with_lastUsedMicDeviceId (Some id)).

(** ** The methods of [AudioManager] *)

(** [constructor(scene, store)], over a store in any state. *)
Definition init (p : Preferences) (lastUsed : option string) : World :=
  {| micDevices := []; deviceId := None; audioTrack := None;
     mediaStream := None; state := None;
     preferences := p; lastUsedMicDeviceId := lastUsed;
     heap := []; tracks := []; trace := [] |}.

(** [micLabelForAudioTrack(audioTrack)]: [(audioTrack && audioTrack.label) || ""] *)
Definition micLabelForAudioTrack (a : option MediaStreamTrack) : string :=
  match a with
  | Some t => track_label t
  | None => ""
  end.

(** [micDeviceIdForMicLabel(label)]:
    [this.micDevices.filter(d => d.label === label).map(d => d.value)[0]] *)
Definition micDeviceIdForMicLabel (w : World) (lbl : string) : option string :=
  head (map value (List.filter (fun d => String.eqb (label d) lbl) (micDevices w))).

(** [micLabelForDeviceId(deviceId)] *)
Definition micLabelForDeviceId (w : World) (id : string) : option string :=
  head (map label (List.filter (fun d => String.eqb (value d) id) (micDevices w))).

(** [get selectedMicLabel] *)
Definition selectedMicLabel (w : World) : string :=
  micLabelForAudioTrack (audioTrack w).

(** [get selectedMicDeviceId] *)
Definition selectedMicDeviceId (w : World) : option string :=
  micDeviceIdForMicLabel w (selectedMicLabel w).

(** The entry of [micDevices] made of an enumerated device:
    [{ value: d.deviceId, label: d.label || `Mic (${d.deviceId.substr(0, 9)})` }] *)
Definition micDevice_of (d : MediaDeviceInfo) : MicDevice :=
  {| value := d_deviceId d;
     label := if String.eqb (d_label d) "" then
                "Mic (" +:+ substring 0 9 (d_deviceId d) +:+ ")"
              else d_label d |}.

Definition is_audioinput (d : MediaDeviceInfo) : bool :=
  match d_kind d with audioinput => true | _ => false end.

(** [async fetchMicDevices()] *)
Definition fetchMicDevices (devs : list MediaDeviceInfo) : M unit :=
  mediaDevices ← enumerateDevices devs;
  modify (with_micDevices (map micDevice_of (List.filter is_audioinput mediaDevices))).

(** [onDeviceChange] *)
Definition onDeviceChange (devs : list MediaDeviceInfo) : M unit :=
  fetchMicDevices devs;;
  scene_emit "devicechange".

(** The warning of [recreateAudioStream]. *)
Definition oculus_bug_warning : string :=
  "Oculus Browser 6 bug hit: Audio stream track ended without calling stop. Recreating audio stream.".

(** The closure [recreateAudioStream] of [fetchAudioTrack], which has
    captured the reference [constraints].  When its [getUserMedia] rejects,
    the closure's promise rejects and nothing else happens. *)
Definition recreateAudioStream (constraints : loc) (r : CaptureResult) : M unit :=
  console log_warn oculus_bug_warning;;
  res ← getUserMedia constraints r;
  match res with
  | inl t =>
      modify (with_audioTrack (Some t));;
      addStreamToOutboundAudio "microphone" (CaptureStream t);;
      scene_emit "local-media-stream-created";;
      addEndedListener t constraints
  | inr _ => skip
  end.

(** The platform ends the capture of a live track (not a [stop()] of the
    page) and fires "ended" on it: the once-listener is removed and run. *)
Definition track_ended (t : MediaStreamTrack) (r : CaptureResult) : M unit :=
  st ← gets (fun w => tracks w !! track_id t);
  match st with
  | Some st =>
      if live st then
        emit (EvEnded t);;
        modify (fun w =>
          with_tracks (<[track_id t := {| live := false; ended_once := None |}]> (tracks w)) w);;
        match ended_once st with
        | Some constraints => recreateAudioStream constraints r
        | None => skip
        end
      else skip
  | None => skip
  end.

Section Methods.

Variable pf : Platform.

(** [async fetchAudioTrack(constraints = { audio: {} })] *)
Definition fetchAudioTrack (arg : option loc) (r : CaptureResult) : M bool :=
  constraints ← match arg with
                | Some l => mret l
                | None => alloc audio_empty
                end;
  a ← gets audioTrack;
  match a with
  | Some t => track_stop t
  | None => skip
  end;;
  p ← gets preferences;
  assign constraints
    (set_echoCancellation (if strictly_true (disableEchoCancellation p) then false else true));;
  assign constraints
    (set_noiseSuppression (if strictly_true (disableNoiseSuppression p) then false else true));;
  assign constraints
    (set_autoGainControl (if strictly_true (disableAutoGainControl p) then false else true));;
  (if isFirefoxReality pf then
     assign constraints
       (set_echoCancellation (if strictly_false (disableEchoCancellation p) then true else false));;
     assign constraints
       (set_noiseSuppression (if strictly_false (disableNoiseSuppression p) then true else false));;
     assign constraints
       (set_autoGainControl (if strictly_false (disableAutoGainControl p) then true else false));;
     c ← deref constraints;
     store_update_preferences
       {| disableEchoCancellation := Some (js_not (echoCancellation c));
          disableNoiseSuppression := Some (js_not (noiseSuppression c));
          disableAutoGainControl := Some (js_not (autoGainControl c)) |}
   else skip);;
  res ← getUserMedia constraints r;
  match res with
  | inl t =>
      addStreamToOutboundAudio "microphone" (CaptureStream t);;
      modify (with_mediaStream (Some OutboundStream));;
      modify (with_audioTrack (Some t));;
      (if isOculusBrowser pf then addEndedListener t constraints else skip);;
      mret true
  | inr _ =>
      console log_error "Error during getUserMedia: ";;
      modify (with_audioTrack None);;
      mret false
  end.

(** [async setupNewMediaStream()] *)
Definition setupNewMediaStream (devs : list MediaDeviceInfo) : M unit :=
  fetchMicDevices devs;;
  a ← gets audioTrack;
  match a with
  | Some t =>
      micDeviceId ← gets (fun w => micDeviceIdForMicLabel w (micLabelForAudioTrack (Some t)));
      (if truthy micDeviceId then
         store_update_settings (default "" micDeviceId);;
         lbl ← gets (fun w => micLabelForDeviceId w (default "" micDeviceId));
         console log_info ("Selected input device: " +:+ default "undefined" lbl)
       else skip);;
      scene_emit "local-media-stream-created"
  | None => console log_info "No available audio tracks"
  end.

(** [async selectMicDevice(deviceId)] *)
Definition selectMicDevice (deviceId : string) (r : CaptureResult)
    (devs : list MediaDeviceInfo) : M bool :=
  constraints ← alloc {| c_deviceId := Exact [deviceId]; echoCancellation := None;
                         noiseSuppression := None; autoGainControl := None |};
  result ← fetchAudioTrack (Some constraints) r;
  setupNewMediaStream devs;;
  mret result.

(** The object [{ hasAudio }] that [setMediaStreamToDefault] returns. *)
Record DefaultResult : Type := { hasAudio : bool }.

(** [async setMediaStreamToDefault()] *)
Definition setMediaStreamToDefault (r : CaptureResult)
    (devs : list MediaDeviceInfo) : M DefaultResult :=
  last ← gets lastUsedMicDeviceId;
  hasAudio ← (if truthy last then
                constraints ← alloc {| c_deviceId := Ideal (default "" last);
                                       echoCancellation := None;
                                       noiseSuppression := None;
                                       autoGainControl := None |};
                fetchAudioTrack (Some constraints) r
              else
                constraints ← alloc audio_empty;
                fetchAudioTrack (Some constraints) r);
  setupNewMediaStream devs;;
  mret {| hasAudio := hasAudio |}.

(** The outcome of a method that may throw. *)
Inductive Outcome (A : Type) : Type :=
| Returns (a : A)
| ThrowsTypeError.

(** [hasHmdMicrophone()], over the [state] it reads. *)
Definition hasHmdMicrophone (st : HostState) : bool :=
  existsb (fun d => existsb (fun r => Regex.test r (label d)) HMD_MIC_REGEXES)
          (state_micDevices st).

(** [async shouldShowHmdMicWarning()].  Reading a property of
    [this.state] throws when no [state] was put on the manager. *)
Definition shouldShowHmdMicWarning (w : World) : Outcome bool :=
  if isMobile pf || isMobileVR pf then Returns bool false
  else match state w with
       | None => ThrowsTypeError bool
       | Some st =>
           if negb (enterInVR st) then Returns bool false
           else if negb (hasHmdMicrophone st) then Returns bool false
           else Returns bool
                  (negb (existsb (fun r => Regex.test r (selectedMicLabel w))
                                 HMD_MIC_REGEXES))
       end.

End Methods.

Arguments Returns {A} a.
Arguments ThrowsTypeError {A}.

(** ** Reachable worlds of serialised calls

    The worlds between the calls of a history in which every call runs to
    its return before the next event is handled: no world in which a call
    waits for its capture is among them.  (The methods are split at that
    wait further down, where calls that overlap are looked at.)

    A manager is constructed over some store, and from then on: its methods
    are called (with a reference to an existing object where they take one),
    the platform reports a device change or ends a track, a caller builds or
    changes a constraints object of its own, and the rest of the application
    writes the store or puts a [state] on the manager.  The accessors of the
    class are plain reads and writes of its fields; the writes of the methods
    are the ones that count here. *)
Inductive reachable (pf : Platform) : World -> Prop :=
| reach_init p lastUsed :
    reachable pf (init p lastUsed)
| reach_selectMicDevice w id r devs :
    reachable pf w -> reachable pf (snd (selectMicDevice pf id r devs w))
| reach_setMediaStreamToDefault w r devs :
    reachable pf w -> reachable pf (snd (setMediaStreamToDefault pf r devs w))
| reach_fetchAudioTrack w arg r :
    reachable pf w ->
    (forall l, arg = Some l -> l < length (heap w)) ->
    reachable pf (snd (fetchAudioTrack pf arg r w))
| reach_setupNewMediaStream w devs :
    reachable pf w -> reachable pf (snd (setupNewMediaStream devs w))
| reach_fetchMicDevices w devs :
    reachable pf w -> reachable pf (snd (fetchMicDevices devs w))
| reach_onDeviceChange w devs :
    reachable pf w -> reachable pf (snd (onDeviceChange devs w))
| reach_track_ended w t r :
    reachable pf w -> reachable pf (snd (track_ended t r w))
| reach_caller_alloc w c :
    reachable pf w -> reachable pf (snd (alloc c w))
| reach_caller_assign w l f :
    reachable pf w -> reachable pf (snd (assign l f w))
| reach_store_written w p lastUsed :
    reachable pf w ->
    reachable pf (with_lastUsedMicDeviceId lastUsed (with_preferences p w))
| reach_state_assigned w st :
    reachable pf w -> reachable pf (with_state st w).

(** ** Reading a trace *)

(** The capture requests of a trace, newest first: the reference passed to
    [getUserMedia] and what the object held at that moment. *)
Fixpoint requests (tr : list Event) : list (loc * Constraints) :=
  match tr with
  | [] => []
  | EvGetUserMedia l c :: tr' => (l, c) :: requests tr'
  | _ :: tr' => requests tr'
  end.

(** The tracks that [stop()] was called on, newest first. *)
Fixpoint stops (tr : list Event) : list MediaStreamTrack :=
  match tr with
  | [] => []
  | EvStop t :: tr' => t :: stops tr'
  | _ :: tr' => stops tr'
  end.

(** The identities of the tracks that are capturing after the events of a
    trace: handed out by [getUserMedia] and neither stopped nor ended. *)
Definition live_step (e : Event) (ls : list nat) : list nat :=
  match e with
  | EvCaptured t => track_id t :: ls
  | EvStop t => List.filter (fun i => negb (i =? track_id t)%nat) ls
  | EvEnded t => List.filter (fun i => negb (i =? track_id t)%nat) ls
  | _ => ls
  end.

Fixpoint live_at (tr : list Event) : list nat :=
  match tr with
  | [] => []
  | e :: tr' => live_step e (live_at tr')
  end.

(** At every moment of the trace at most one track was capturing. *)
Fixpoint never_two_live (tr : list Event) : Prop :=
  match tr with
  | [] => True
  | _ :: tr' => length (live_at tr) <= 1 /\ never_two_live tr'
  end.

(** The events that leave the capturing tracks as they are. *)
Definition neutral (e : Event) : bool :=
  match e with
  | EvCaptured _ | EvStop _ | EvEnded _ => false
  | _ => true
  end.

(** The tracks of the world that are capturing. *)
Definition is_live (w : World) (i : nat) : Prop :=
  exists st, tracks w !! i = Some st /\ live st = true.

(** ** Platforms and worlds used in the examples *)

Definition desktop : Platform :=
  {| isMobile := false; isMobileVR := false;
     userAgent := "Mozilla/5.0 (X11; Linux x86_64) Chrome/80.0" |}.

Definition oculus_browser : Platform :=
  {| isMobile := false; isMobileVR := false;
     userAgent := "Mozilla/5.0 (X11; Linux x86_64; Quest) OculusBrowser/6.0 Chrome/74.0" |}.

Definition firefox_reality : Platform :=
  {| isMobile := true; isMobileVR := true;
     userAgent := "Mozilla/5.0 (Android 7.1.2; Mobile VR; rv:65.0) Gecko/65.0 Firefox/65.0" |}.

Definition no_preferences : Preferences :=
  {| disableEchoCancellation := None; disableNoiseSuppression := None;
     disableAutoGainControl := None |}.

Definition fresh : World := init no_preferences None.

(** ** What a call of [fetchAudioTrack] leaves behind, in closed form *)

(** The object that [fetchAudioTrack] works on: its argument, or the new
    object of the default parameter. *)
Definition target (arg : option loc) (w : World) : loc :=
  match arg with
  | Some l => l
  | None => length (heap w)
  end.

Definition heap_with_default (arg : option loc) (w : World) : list Constraints :=
  match arg with
  | Some _ => heap w
  | None => heap w ++ [audio_empty]
  end.

(** The toggle of a flag: [flag === true ? false : true], and on Firefox
    Reality [flag === false ? true : false]. *)
Definition toggle (pf : Platform) (flag : option bool) : bool :=
  if isFirefoxReality pf then strictly_false flag else negb (strictly_true flag).

(** A constraints object after lines 110-120 have written the toggles. *)
Definition constrain (pf : Platform) (p : Preferences) (c : Constraints) : Constraints :=
  {| c_deviceId := c_deviceId c;
     echoCancellation := Some (toggle pf (disableEchoCancellation p));
     noiseSuppression := Some (toggle pf (disableNoiseSuppression p));
     autoGainControl := Some (toggle pf (disableAutoGainControl p)) |}.

(** The tracks once the active one has been stopped. *)
Definition stopped (w : World) : list TrackState :=
  match audioTrack w with
  | Some t => alter (set_live false) (track_id t) (tracks w)
  | None => tracks w
  end.

(** The track a granted capture hands out in world [w]. *)
Definition next_track (w : World) (lbl : string) : MediaStreamTrack :=
  {| track_id := length (tracks w); track_label := lbl |}.

Definition granted (r : CaptureResult) : bool :=
  match r with Granted _ => true | Rejected _ => false end.

(** The preferences that Firefox Reality's workaround writes back:
    each disable flag becomes the negation of its toggle. *)
Definition written_back (pf : Platform) (p : Preferences) : Preferences :=
  {| disableEchoCancellation := Some (negb (toggle pf (disableEchoCancellation p)));
     disableNoiseSuppression := Some (negb (toggle pf (disableNoiseSuppression p)));
     disableAutoGainControl := Some (negb (toggle pf (disableAutoGainControl p))) |}.

(** The events of one call of [fetchAudioTrack], newest first. *)
Definition fetch_events (pf : Platform) (arg : option loc) (r : CaptureResult)
    (w : World) : list Event :=
  let l := target arg w in
  let c := default audio_empty (heap_with_default arg w !! l) in
  match r with
  | Granted lbl =>
      (if isOculusBrowser pf then [EvAddEndedListener (next_track w lbl) l] else []) ++
      [EvAddStreamToOutboundAudio "microphone" (CaptureStream (next_track w lbl));
       EvCaptured (next_track w lbl)]
  | Rejected _ => [EvConsole log_error "Error during getUserMedia: "]
  end ++
  [EvGetUserMedia l (constrain pf (preferences w) c)] ++
  (if isFirefoxReality pf
   then [EvUpdatePreferences (written_back pf (preferences w))] else []) ++
  match audioTrack w with
  | Some t => [EvStop t]
  | None => []
  end.

(** The object literals of [selectMicDevice] and [setMediaStreamToDefault]. *)
Definition exact_device (id : string) : Constraints :=
  {| c_deviceId := Exact [id]; echoCancellation := None;
     noiseSuppression := None; autoGainControl := None |}.

Definition ideal_device (id : string) : Constraints :=
  {| c_deviceId := Ideal id; echoCancellation := None;
     noiseSuppression := None; autoGainControl := None |}.

(** The device directory that a refresh makes of an enumeration. *)
Definition directory (devs : list MediaDeviceInfo) : list MicDevice :=
  map micDevice_of (List.filter is_audioinput devs).

(** ** The invariant of the reachable worlds *)

Record Inv (pf : Platform) (w : World) : Prop := {
  (* the active track is one the platform handed out *)
  inv_known : forall t, audioTrack w = Some t -> track_id t < length (tracks w);
  (* a capturing track is the active track *)
  inv_live : forall i, is_live w i ->
             exists t, audioTrack w = Some t /\ track_id t = i;
  (* once a capture was granted, the outbound stream is set *)
  inv_stream : tracks w <> [] -> mediaStream w = Some OutboundStream;
  (* the directory has no empty label *)
  inv_labels : Forall (fun d => label d <> "") (micDevices w);
  (* the field _deviceId is never written *)
  inv_deviceId : deviceId w = None;
  (* the trace and the platform agree on the capturing tracks *)
  inv_trace : forall i, i ∈ live_at (trace w) <-> is_live w i;
  inv_never : never_two_live (trace w);
  (* a recovery hook exists on the Oculus browser only, over a valid object *)
  inv_hooks : forall i st l, tracks w !! i = Some st -> ended_once st = Some l ->
              isOculusBrowser pf = true /\ l < length (heap w);
  (* before the first granted capture there is no outbound stream *)
  inv_no_stream : tracks w = [] -> mediaStream w = None
}.

(** ** What the end of a track leaves behind, in closed form *)

(** The tracks once the platform has ended [t] and removed its listener. *)
Definition ended_tracks (t : MediaStreamTrack) (w : World) : list TrackState :=
  <[track_id t := {| live := false; ended_once := None |}]> (tracks w).

(** The events of a recovery through the hook that captured [l], newest
    first, after the platform ended [t]. *)
Definition recovery_events (t : MediaStreamTrack) (l : loc) (r : CaptureResult)
    (w : World) : list Event :=
  match r with
  | Granted lbl =>
      [EvAddEndedListener (next_track w lbl) l;
       EvEmit "local-media-stream-created";
       EvAddStreamToOutboundAudio "microphone" (CaptureStream (next_track w lbl));
       EvCaptured (next_track w lbl)]
  | Rejected _ => []
  end ++
  [EvGetUserMedia l (default audio_empty (heap w !! l));
   EvConsole log_warn oculus_bug_warning;
   EvEnded t].

Definition recovered (t : MediaStreamTrack) (l : loc) (r : CaptureResult)
    (w : World) : World :=
  {| micDevices := micDevices w; deviceId := deviceId w;
     audioTrack := match r with
                   | Granted lbl => Some (next_track w lbl)
                   | Rejected _ => audioTrack w
                   end;
     mediaStream := mediaStream w; state := state w;
     preferences := preferences w; lastUsedMicDeviceId := lastUsedMicDeviceId w;
     heap := heap w;
     tracks := match r with
               | Granted _ =>
                   ended_tracks t w ++ [{| live := true; ended_once := Some l |}]
               | Rejected _ => ended_tracks t w
               end;
     trace := recovery_events t l r w ++ trace w |}.

(** The world after the platform ended a track that had no hook. *)
Definition ended_unhooked (t : MediaStreamTrack) (w : World) : World :=
  {| micDevices := micDevices w; deviceId := deviceId w;
     audioTrack := audioTrack w;
     mediaStream := mediaStream w; state := state w;
     preferences := preferences w; lastUsedMicDeviceId := lastUsedMicDeviceId w;
     heap := heap w;
     tracks := ended_tracks t w;
     trace := EvEnded t :: trace w |}.

(** ** Statements shared by the properties *)

(** The coupling that the specification asks of the two fields. *)
Definition coupled (w : World) : Prop :=
  mediaStream w <> None <-> audioTrack w <> None.

(** A reference that [fetchAudioTrack] may be given: an object of the heap. *)
Definition valid_arg (arg : option loc) (w : World) : Prop :=
  forall l, arg = Some l -> l < length (heap w).

(** A manager on a desktop browser after one granted capture. *)
Definition after_grant : World :=
  snd (fetchAudioTrack desktop None (Granted "Generic Mic") fresh).

(** ... and after a second request that the user denied. *)
Definition after_denial : World :=
  snd (fetchAudioTrack desktop None (Rejected NotAllowedError) after_grant).

(** A caller's object [{ audio: {} }] on a new Firefox Reality manager whose
    store holds no preference. *)
Definition fxr_start : World := snd (alloc audio_empty fresh).


(** An enumeration with one microphone and one camera. *)
Definition one_microphone : list MediaDeviceInfo :=
  [ {| d_deviceId := "mic-42"; d_kind := audioinput; d_label := "Generic Mic" |};
    {| d_deviceId := "cam-1"; d_kind := videoinput; d_label := "Camera" |} ].

(** A new desktop manager after a refresh of its device directory. *)
Definition with_directory : World := snd (fetchMicDevices one_microphone fresh).

(** The events of a granted recovery, newest first: the track [t] was ended,
    the closure over [l] requested [c] and obtained [t']. *)
Definition recovery_trace (t t' : MediaStreamTrack) (l : loc) (c : Constraints)
  : list Event :=
  [EvAddEndedListener t' l;
   EvEmit "local-media-stream-created";
   EvAddStreamToOutboundAudio "microphone" (CaptureStream t');
   EvCaptured t';
   EvGetUserMedia l c;
   EvConsole log_warn oculus_bug_warning;
   EvEnded t].

Definition hooked (l : loc) : TrackState := {| live := true; ended_once := Some l |}.
Definition unhooked : TrackState := {| live := true; ended_once := None |}.
Definition dead : TrackState := {| live := false; ended_once := None |}.

(** A caller's object [{ audio: { deviceId: { exact: ["mic-42"] } } }] on a
    new manager in the Oculus browser. *)
Definition caller_object : World := snd (alloc (exact_device "mic-42") fresh).

(** ** The headset-microphone patterns, read as a property of a label *)

(** [label] contains [word], in any letter case, with a non-word character
    right before it and another right after it: the strings that
    [/\Wword\W/i] matches.  An occurrence at the very start or at the very
    end of the label has no such neighbour. *)
Definition delimited (word lbl : string) : Prop :=
  exists pre a mid b post,
    lbl = pre +:+ String a (mid +:+ String b post) /\
    Regex.is_word a = false /\ Regex.is_word b = false /\
    map Regex.canonicalize (list_ascii_of_string mid) =
    map Regex.canonicalize (list_ascii_of_string word).

Definition hmd_label (lbl : string) : Prop :=
  delimited "vive" lbl \/ delimited "rift" lbl.

(** [HMD_MIC_REGEXES.find(r => label.match(r))], as a truth value. *)
Definition matches_hmd (lbl : string) : bool :=
  existsb (fun r => Regex.test r lbl) HMD_MIC_REGEXES.

(** A manager on which a [state] was put, [enterInVR] set, whose devices
    carry the given labels and whose active track has the label [selected]. *)
Definition labelled (labels : list string) : list MicDevice :=
  map (fun s => {| value := "id of " +:+ s; label := s |}) labels.

Definition advisory_world (labels : list string) (selected : string) : World :=
  {| micDevices := labelled labels; deviceId := None;
     audioTrack := Some {| track_id := 0; track_label := selected |};
     mediaStream := Some OutboundStream;
     state := Some {| enterInVR := true; state_micDevices := labelled labels |};
     preferences := no_preferences; lastUsedMicDeviceId := None;
     heap := [audio_empty]; tracks := [unhooked]; trace := [] |}.


(** ** Further parts of the class *)

(** [get isAudioDeviceSelected]: [this.audioTrack !== null].  The field holds
    [null] or a track: [getUserMedia] resolves with a stream that has an
    audio track. *)
Definition isAudioDeviceSelected (w : World) : bool :=
  match audioTrack w with
  | Some _ => true
  | None => false
  end.

(** A string with its lower-case letters in upper case. *)
Fixpoint upcase (s : string) : string :=
  match s with
  | EmptyString => EmptyString
  | String c s' => String (Regex.canonicalize c) (upcase s')
  end.

(** The toggle events of a trace: the writes of the store's preferences. *)
Fixpoint preference_writes (tr : list Event) : list Preferences :=
  match tr with
  | [] => []
  | EvUpdatePreferences p :: tr' => p :: preference_writes tr'
  | _ :: tr' => preference_writes tr'
  end.

(** The notifications of a trace, newest first. *)
Fixpoint emitted (tr : list Event) : list string :=
  match tr with
  | [] => []
  | EvEmit name :: tr' => name :: emitted tr'
  | _ :: tr' => emitted tr'
  end.

(** The writes of [settings.lastUsedMicDeviceId] of a trace, newest first. *)
Fixpoint settings_writes (tr : list Event) : list string :=
  match tr with
  | [] => []
  | EvUpdateSettings id :: tr' => id :: settings_writes tr'
  | _ :: tr' => settings_writes tr'
  end.

(** A manager in the Oculus browser after one granted capture. *)
Definition hooked_world : World :=
  snd (fetchAudioTrack oculus_browser None (Granted "Headset Mic") fresh).

(** An enumeration with a microphone whose label the platform withholds. *)
Definition withheld_label : list MediaDeviceInfo :=
  [ {| d_deviceId := "0123456789abcdef"; d_kind := audioinput; d_label := "" |};
    {| d_deviceId := "speaker-1"; d_kind := audiooutput; d_label := "Speakers" |} ].


(** ** The methods at the [await] of their capture

    [fetchAudioTrack] suspends at [await getUserMedia(constraints)]: what
    precedes runs when the method is called, what follows runs when the
    platform settles the request, and other calls and events may run in
    between. *)

(** The call [navigator.mediaDevices.getUserMedia(constraints)] itself. *)
Definition getUserMedia_request (constraints : loc) : M unit :=
  c ← deref constraints;
  emit (EvGetUserMedia constraints c).

(** The settlement of a request: a granted capture is a new stream with one
    new, live audio track. *)
Definition getUserMedia_settle (r : CaptureResult)
  : M (MediaStreamTrack + CaptureError) :=
  match r with
  | Granted lbl =>
      n ← gets (fun w => length (tracks w));
      let t := {| track_id := n; track_label := lbl |} in
      modify (fun w =>
        with_tracks (tracks w ++ [{| live := true; ended_once := None |}]) w);;
      emit (EvCaptured t);;
      mret (inl t)
  | Rejected e => mret (inr e)
  end.

(** [fetchAudioTrack] up to its [await]: lines 105-132, with the request
    issued.  The result is the reference [constraints] that the rest of the
    method holds. *)
Definition fetchAudioTrack_request (pf : Platform) (arg : option loc) : M loc :=
  constraints ← match arg with
                | Some l => mret l
                | None => alloc audio_empty
                end;
  a ← gets audioTrack;
  match a with
  | Some t => track_stop t
  | None => skip
  end;;
  p ← gets preferences;
  assign constraints
    (set_echoCancellation (if strictly_true (disableEchoCancellation p) then false else true));;
  assign constraints
    (set_noiseSuppression (if strictly_true (disableNoiseSuppression p) then false else true));;
  assign constraints
    (set_autoGainControl (if strictly_true (disableAutoGainControl p) then false else true));;
  (if isFirefoxReality pf then
     assign constraints
       (set_echoCancellation (if strictly_false (disableEchoCancellation p) then true else false));;
     assign constraints
       (set_noiseSuppression (if strictly_false (disableNoiseSuppression p) then true else false));;
     assign constraints
       (set_autoGainControl (if strictly_false (disableAutoGainControl p) then true else false));;
     c ← deref constraints;
     store_update_preferences
       {| disableEchoCancellation := Some (js_not (echoCancellation c));
          disableNoiseSuppression := Some (js_not (noiseSuppression c));
          disableAutoGainControl := Some (js_not (autoGainControl c)) |}
   else skip);;
  getUserMedia_request constraints;;
  mret constraints.

(** [fetchAudioTrack] from the settlement of its request on: lines 132-166. *)
Definition fetchAudioTrack_settled (pf : Platform) (constraints : loc)
    (r : CaptureResult) : M bool :=
  res ← getUserMedia_settle r;
  match res with
  | inl t =>
      addStreamToOutboundAudio "microphone" (CaptureStream t);;
      modify (with_mediaStream (Some OutboundStream));;
      modify (with_audioTrack (Some t));;
      (if isOculusBrowser pf then addEndedListener t constraints else skip);;
      mret true
  | inr _ =>
      console log_error "Error during getUserMedia: ";;
      modify (with_audioTrack None);;
      mret false
  end.

(** [selectMicDevice] up to the [await] of its capture, and from the
    settlement on. *)
Definition selectMicDevice_request (pf : Platform) (deviceId : string) : M loc :=
  constraints ← alloc {| c_deviceId := Exact [deviceId]; echoCancellation := None;
                         noiseSuppression := None; autoGainControl := None |};
  fetchAudioTrack_request pf (Some constraints).

Definition selectMicDevice_settled (pf : Platform) (constraints : loc)
    (r : CaptureResult) (devs : list MediaDeviceInfo) : M bool :=
  result ← fetchAudioTrack_settled pf constraints r;
  setupNewMediaStream devs;;
  mret result.

(** Two calls of [selectMicDevice] that overlap, on a desktop manager with
    a granted capture: the second is made while the first waits for its
    capture; then the first capture is granted and the first call returns,
    then the second. *)
Definition first_waiting : World :=
  snd (selectMicDevice_request desktop "mic-42" after_grant).

Definition both_waiting : World :=
  snd (selectMicDevice_request desktop "mic-42" first_waiting).

Definition first_returned : World :=
  snd (selectMicDevice_settled desktop 1 (Granted "Generic Mic") one_microphone
         both_waiting).

Definition overlapped : World :=
  snd (selectMicDevice_settled desktop 2 (Granted "Generic Mic") one_microphone
         first_returned).

(** * Properties *)

(** ** Running the methods symbolically *)

Ltac run :=
  unfold selectMicDevice, setMediaStreamToDefault, setupNewMediaStream,
    fetchAudioTrack, track_ended, recreateAudioStream, onDeviceChange,
    fetchMicDevices, getUserMedia, enumerateDevices, addStreamToOutboundAudio,
    addEndedListener, track_stop, store_update_preferences,
    store_update_settings, scene_emit, console, alloc, deref, assign, emit,
    skip, gets, modify, mbind, M_bind, mret, M_ret; simpl.

Ltac fetch_cases pf arg r w :=
  run;
  destruct arg; simpl;
  destruct (audioTrack w) eqn:?; simpl;
  destruct (isFirefoxReality pf) eqn:?; simpl;
  destruct r; simpl;
  try (destruct (isOculusBrowser pf) eqn:?; simpl).

Lemma alter_snoc {A : Type} (f : A -> A) (l : list A) (x : A) (n : nat) :
  n = length l -> alter f n (l ++ [x]) = l ++ [f x].
Proof.
  intros ->. replace (length l) with (length l + 0) by lia.
  rewrite alter_app_r. reflexivity.
Qed.

Lemma bind_run {A B : Type} (m : M A) (k : A -> M B) (w : World) :
  (m ≫= k) w = k (fst (m w)) (snd (m w)).
Proof. unfold mbind, M_bind. destruct (m w); reflexivity. Qed.

(** *** [fetchAudioTrack], field by field *)

Lemma fetch_result pf arg r w :
  fst (fetchAudioTrack pf arg r w) = granted r.
Proof. fetch_cases pf arg r w; reflexivity. Qed.

Lemma fetch_audioTrack pf arg r w :
  audioTrack (snd (fetchAudioTrack pf arg r w)) =
  match r with
  | Granted lbl => Some (next_track w lbl)
  | Rejected _ => None
  end.
Proof.
  unfold next_track.
  fetch_cases pf arg r w; rewrite ?length_alter; reflexivity.
Qed.

Lemma fetch_mediaStream pf arg r w :
  mediaStream (snd (fetchAudioTrack pf arg r w)) =
  match r with
  | Granted _ => Some OutboundStream
  | Rejected _ => mediaStream w
  end.
Proof. fetch_cases pf arg r w; reflexivity. Qed.

Lemma fetch_tracks pf arg r w :
  tracks (snd (fetchAudioTrack pf arg r w)) =
  match r with
  | Granted _ =>
      stopped w ++
      [{| live := true;
          ended_once := if isOculusBrowser pf then Some (target arg w) else None |}]
  | Rejected _ => stopped w
  end.
Proof.
  unfold stopped, target.
  fetch_cases pf arg r w;
    rewrite ?alter_snoc by (rewrite ?length_alter; reflexivity); reflexivity.
Qed.

Lemma fetch_frame pf arg r w :
  let w' := snd (fetchAudioTrack pf arg r w) in
  micDevices w' = micDevices w /\ deviceId w' = deviceId w /\
  state w' = state w /\ lastUsedMicDeviceId w' = lastUsedMicDeviceId w.
Proof. fetch_cases pf arg r w; repeat split; reflexivity. Qed.

Lemma constrain_compose pf p (c : Constraints) :
  isFirefoxReality pf = false ->
  (set_autoGainControl (if strictly_true (disableAutoGainControl p) then false else true)
   ∘ set_noiseSuppression (if strictly_true (disableNoiseSuppression p) then false else true)
   ∘ set_echoCancellation (if strictly_true (disableEchoCancellation p) then false else true)) c
  = constrain pf p c.
Proof.
  intros E. unfold constrain, toggle. rewrite E. simpl.
  destruct (strictly_true (disableAutoGainControl p)),
    (strictly_true (disableNoiseSuppression p)),
    (strictly_true (disableEchoCancellation p)); reflexivity.
Qed.

Lemma constrain_compose_fxr pf p (c : Constraints) :
  isFirefoxReality pf = true ->
  (set_autoGainControl (if strictly_false (disableAutoGainControl p) then true else false)
   ∘ set_noiseSuppression (if strictly_false (disableNoiseSuppression p) then true else false)
   ∘ set_echoCancellation (if strictly_false (disableEchoCancellation p) then true else false)
   ∘ set_autoGainControl (if strictly_true (disableAutoGainControl p) then false else true)
   ∘ set_noiseSuppression (if strictly_true (disableNoiseSuppression p) then false else true)
   ∘ set_echoCancellation (if strictly_true (disableEchoCancellation p) then false else true)) c
  = constrain pf p c.
Proof.
  intros E. unfold constrain, toggle. rewrite E. simpl.
  destruct (strictly_false (disableAutoGainControl p)),
    (strictly_false (disableNoiseSuppression p)),
    (strictly_false (disableEchoCancellation p)); reflexivity.
Qed.

Ltac fold_alters pf E :=
  rewrite !list_alter_alter_eq;
  first [ erewrite list_alter_ext;
          [ | intros ? _; apply (constrain_compose pf); exact E | reflexivity ]
        | erewrite list_alter_ext;
          [ | intros ? _; apply (constrain_compose_fxr pf); exact E | reflexivity ] ].

Lemma fetch_heap pf arg r w :
  heap (snd (fetchAudioTrack pf arg r w)) =
  alter (constrain pf (preferences w)) (target arg w) (heap_with_default arg w).
Proof.
  unfold target, heap_with_default.
  fetch_cases pf arg r w;
    match goal with E : isFirefoxReality pf = _ |- _ => fold_alters pf E end;
    reflexivity.
Qed.

Lemma constrained_lookup pf p l (h : list Constraints) :
  l < length h ->
  default audio_empty (alter (constrain pf p) l h !! l)
  = constrain pf p (default audio_empty (h !! l)).
Proof.
  intros Hl. rewrite list_lookup_alter_eq.
  destruct (lookup_lt_is_Some_2 h l Hl) as [c ->]. reflexivity.
Qed.

Lemma target_valid arg w :
  (forall l, arg = Some l -> l < length (heap w)) ->
  target arg w < length (heap_with_default arg w).
Proof.
  intros H. unfold target, heap_with_default. destruct arg.
  - apply H; reflexivity.
  - rewrite length_app; simpl; lia.
Qed.

Lemma fetch_preferences pf arg r w :
  (forall l, arg = Some l -> l < length (heap w)) ->
  preferences (snd (fetchAudioTrack pf arg r w)) =
  if isFirefoxReality pf then written_back pf (preferences w) else preferences w.
Proof.
  intros Hl. pose proof (target_valid arg w Hl) as Hv.
  unfold target, heap_with_default, written_back in *.
  fetch_cases pf arg r w; try reflexivity;
    match goal with E : isFirefoxReality pf = _ |- _ => fold_alters pf E end;
    rewrite constrained_lookup by exact Hv; reflexivity.
Qed.

Lemma fetch_trace pf arg r w :
  (forall l, arg = Some l -> l < length (heap w)) ->
  trace (snd (fetchAudioTrack pf arg r w)) = fetch_events pf arg r w ++ trace w.
Proof.
  intros Hl. pose proof (target_valid arg w Hl) as Hv.
  unfold fetch_events, next_track, target, heap_with_default, written_back in *.
  fetch_cases pf arg r w; rewrite ?length_alter;
    match goal with E : isFirefoxReality pf = _ |- _ => fold_alters pf E end;
    rewrite !constrained_lookup by exact Hv; reflexivity.
Qed.

(** *** [selectMicDevice] and [setMediaStreamToDefault] as compositions *)

Lemma alloc_fst c w : fst (alloc c w) = length (heap w).
Proof. reflexivity. Qed.

Lemma gets_run {A : Type} (f : World -> A) w : gets f w = (f w, w).
Proof. reflexivity. Qed.

Lemma selectMicDevice_run pf id r devs w :
  selectMicDevice pf id r devs w =
  (granted r,
   snd (setupNewMediaStream devs
          (snd (fetchAudioTrack pf (Some (length (heap w))) r
                  (snd (alloc (exact_device id) w)))))).
Proof.
  unfold selectMicDevice. fold (exact_device id).
  rewrite bind_run, alloc_fst, bind_run, fetch_result, bind_run. reflexivity.
Qed.

Lemma setMediaStreamToDefault_run pf r devs w :
  setMediaStreamToDefault pf r devs w =
  (Build_DefaultResult (granted r),
   snd (setupNewMediaStream devs
          (snd (fetchAudioTrack pf (Some (length (heap w))) r
                  (snd (alloc (if truthy (lastUsedMicDeviceId w)
                               then ideal_device (default "" (lastUsedMicDeviceId w))
                               else audio_empty) w)))))).
Proof.
  unfold setMediaStreamToDefault.
  rewrite bind_run, gets_run. simpl fst; simpl snd.
  rewrite bind_run.
  destruct (truthy (lastUsedMicDeviceId w)).
  - fold (ideal_device (default "" (lastUsedMicDeviceId w))).
    rewrite !bind_run, alloc_fst, fetch_result. reflexivity.
  - rewrite !bind_run, alloc_fst, fetch_result. reflexivity.
Qed.

(** *** [setupNewMediaStream], field by field *)

Lemma setup_frame devs w :
  let w' := snd (setupNewMediaStream devs w) in
  micDevices w' = directory devs /\ audioTrack w' = audioTrack w /\
  mediaStream w' = mediaStream w /\ tracks w' = tracks w /\
  heap w' = heap w /\ preferences w' = preferences w /\
  deviceId w' = deviceId w /\ state w' = state w.
Proof.
  run. destruct (audioTrack w) eqn:Ha; simpl.
  - destruct (truthy _); simpl; rewrite ?Ha; repeat split; reflexivity.
  - rewrite ?Ha; repeat split; reflexivity.
Qed.

(** The events of the housekeeping, newest first. *)
Lemma setup_trace devs w :
  trace (snd (setupNewMediaStream devs w)) =
  match audioTrack w with
  | Some t =>
      let found := head (map value (List.filter
                     (fun d => String.eqb (label d) (track_label t)) (directory devs))) in
      EvEmit "local-media-stream-created" ::
      (if truthy found then
         [EvConsole log_info
            ("Selected input device: " +:+
             default "undefined"
               (head (map label (List.filter
                  (fun d => String.eqb (value d) (default "" found)) (directory devs)))));
          EvUpdateSettings (default "" found)]
       else [])
  | None => [EvConsole log_info "No available audio tracks"]
  end ++ EvEnumerateDevices :: trace w.
Proof.
  run. destruct (audioTrack w) eqn:Ha; simpl; [|reflexivity].
  unfold micDeviceIdForMicLabel, micLabelForDeviceId, directory; simpl.
  destruct (truthy _); reflexivity.
Qed.

Lemma setup_lastUsed devs w :
  lastUsedMicDeviceId (snd (setupNewMediaStream devs w)) =
  match audioTrack w with
  | Some t =>
      let found := head (map value (List.filter
                     (fun d => String.eqb (label d) (track_label t)) (directory devs))) in
      if truthy found then Some (default "" found) else lastUsedMicDeviceId w
  | None => lastUsedMicDeviceId w
  end.
Proof.
  run. destruct (audioTrack w) eqn:Ha; simpl; [|reflexivity].
  unfold micDeviceIdForMicLabel, directory; simpl.
  destruct (truthy _); reflexivity.
Qed.

(** *** [track_ended], case by case *)

Lemma World_ext (w1 w2 : World) :
  micDevices w1 = micDevices w2 -> deviceId w1 = deviceId w2 ->
  audioTrack w1 = audioTrack w2 -> mediaStream w1 = mediaStream w2 ->
  state w1 = state w2 -> preferences w1 = preferences w2 ->
  lastUsedMicDeviceId w1 = lastUsedMicDeviceId w2 -> heap w1 = heap w2 ->
  tracks w1 = tracks w2 -> trace w1 = trace w2 -> w1 = w2.
Proof. destruct w1, w2; simpl; intros; subst; reflexivity. Qed.

Lemma track_ended_idle t r w :
  (forall st, tracks w !! track_id t = Some st -> live st = false) ->
  track_ended t r w = (tt, w).
Proof.
  intros H. run. destruct (tracks w !! track_id t) as [st|] eqn:E; [|reflexivity].
  rewrite (H st eq_refl). reflexivity.
Qed.

Lemma track_ended_unhooked t r w st :
  tracks w !! track_id t = Some st -> live st = true -> ended_once st = None ->
  snd (track_ended t r w) = ended_unhooked t w.
Proof.
  intros H1 H2 H3. run. rewrite H1, H2. simpl. rewrite H3. reflexivity.
Qed.

Lemma track_ended_hooked t r w st l :
  tracks w !! track_id t = Some st -> live st = true -> ended_once st = Some l ->
  snd (track_ended t r w) = recovered t l r w.
Proof.
  intros H1 H2 H3. run. rewrite H1, H2. simpl. rewrite H3.
  unfold recovered, recovery_events, next_track, ended_tracks.
  destruct r; apply World_ext; simpl;
    rewrite ?alter_snoc by (rewrite ?length_insert; reflexivity);
    rewrite ?length_insert; reflexivity.
Qed.

(** ** The invariant *)

Lemma never_two_live_now tr : never_two_live tr -> length (live_at tr) <= 1.
Proof. destruct tr; simpl; [lia | tauto]. Qed.

Lemma live_at_neutral es tr :
  forallb neutral es = true -> live_at (es ++ tr) = live_at tr.
Proof.
  induction es as [|e es IH]; simpl; [reflexivity|].
  intros [He Hes]%andb_prop. rewrite IH by exact Hes.
  destruct e; simpl in *; congruence.
Qed.

Lemma never_two_live_neutral es tr :
  forallb neutral es = true -> never_two_live tr -> never_two_live (es ++ tr).
Proof.
  induction es as [|e es IH]; simpl; [tauto|].
  intros [He Hes]%andb_prop Htr. split; [|auto].
  change (length (live_at ((e :: es) ++ tr)) <= 1).
  rewrite live_at_neutral by (simpl; rewrite He, Hes; reflexivity).
  apply never_two_live_now, Htr.
Qed.

Lemma directory_labels devs : Forall (fun d => label d <> "") (directory devs).
Proof.
  unfold directory. apply Forall_forall. intros d Hd.
  apply list_elem_of_In, in_map_iff in Hd as [x [<- _]]. unfold micDevice_of; simpl.
  destruct (String.eqb (d_label x) "") eqn:E.
  - discriminate.
  - apply String.eqb_neq. exact E.
Qed.

(** A step that touches neither the tracks nor the active track. *)
Lemma Inv_frame pf w w' :
  Inv pf w ->
  audioTrack w' = audioTrack w -> tracks w' = tracks w ->
  mediaStream w' = mediaStream w -> deviceId w' = deviceId w ->
  Forall (fun d => label d <> "") (micDevices w') ->
  length (heap w) <= length (heap w') ->
  (exists es, trace w' = es ++ trace w /\ forallb neutral es = true) ->
  Inv pf w'.
Proof.
  intros [I1 I2 I3 I4 I5 I6 I7 I8 I9] Ha Ht Hm Hd Hl Hh (es & He & Hn).
  split.
  - rewrite Ha, Ht. assumption.
  - unfold is_live. rewrite Ha, Ht. assumption.
  - rewrite Ht, Hm. assumption.
  - assumption.
  - congruence.
  - intros i. rewrite He, live_at_neutral by exact Hn.
    unfold is_live in *. rewrite Ht. auto.
  - rewrite He. apply never_two_live_neutral; assumption.
  - rewrite Ht. intros i st l H1 H2.
    destruct (I8 i st l H1 H2). split; [assumption | lia].
  - rewrite Ht, Hm. assumption.
Qed.

Lemma Inv_init pf p lastUsed : Inv pf (init p lastUsed).
Proof.
  split; simpl; try done.
  - intros i (st & H & _). unfold init in H; simpl in H; destruct i; discriminate.
  - intros i. split.
    + intros H. inversion H.
    + intros (st & H & _). unfold init in H; simpl in H; destruct i; discriminate.
Qed.

Lemma filter_none {A : Type} (f : A -> bool) (l : list A) :
  (forall x, x ∈ l -> f x = false) -> List.filter f l = [].
Proof.
  induction l as [|a l IH]; simpl; intros H; [reflexivity|].
  rewrite (H a) by apply list_elem_of_here.
  apply IH. intros x Hx. apply H. apply list_elem_of_further, Hx.
Qed.

Lemma stopped_length w : length (stopped w) = length (tracks w).
Proof. unfold stopped. destruct (audioTrack w); rewrite ?length_alter; reflexivity. Qed.

Lemma stopped_dead pf w i st :
  Inv pf w -> stopped w !! i = Some st -> live st = false.
Proof.
  intros I H. unfold stopped in H.
  destruct (live st) eqn:L; [exfalso|reflexivity].
  destruct (audioTrack w) as [t|] eqn:Ha.
  - destruct (decide (track_id t = i)) as [<-|Hne].
    + rewrite list_lookup_alter_eq in H.
      destruct (tracks w !! track_id t); simpl in H; [|discriminate].
      injection H as <-. simpl in L. discriminate.
    + rewrite list_lookup_alter_ne in H by exact Hne.
      destruct (inv_live pf w I i) as (t' & Ht' & Hid); [exists st; auto|].
      congruence.
  - destruct (inv_live pf w I i) as (t' & Ht' & _); [exists st; auto|].
    congruence.
Qed.

Lemma stopped_hook w i st :
  stopped w !! i = Some st ->
  exists st0, tracks w !! i = Some st0 /\ ended_once st0 = ended_once st.
Proof.
  unfold stopped. destruct (audioTrack w) as [t|]; [|eauto].
  destruct (decide (track_id t = i)) as [<-|Hne].
  - rewrite list_lookup_alter_eq.
    destruct (tracks w !! track_id t) as [st0|]; simpl; [|discriminate].
    intros [= <-]. eauto.
  - rewrite list_lookup_alter_ne by exact Hne. eauto.
Qed.

Lemma live_after_stop pf w :
  Inv pf w ->
  live_at (match audioTrack w with Some t => [EvStop t] | None => [] end ++ trace w) = [].
Proof.
  intros I. destruct (audioTrack w) as [t|] eqn:Ha; simpl.
  - apply filter_none. intros i Hi.
    apply (inv_trace pf w I), (inv_live pf w I) in Hi as (t' & Ht' & <-).
    assert (t' = t) as -> by congruence.
    rewrite Nat.eqb_refl. reflexivity.
  - destruct (live_at (trace w)) as [|i ls] eqn:E; [reflexivity|].
    assert (Hi : i ∈ live_at (trace w)) by (rewrite E; apply list_elem_of_here).
    apply (inv_trace pf w I), (inv_live pf w I) in Hi as (t' & Ht' & _).
    congruence.
Qed.

Lemma fetch_live_at pf arg r w :
  Inv pf w ->
  live_at (fetch_events pf arg r w ++ trace w) =
  match r with Granted _ => [length (tracks w)] | Rejected _ => [] end.
Proof.
  intros I. pose proof (live_after_stop pf w I) as Hs.
  unfold fetch_events. rewrite <- !app_assoc.
  destruct r, (isOculusBrowser pf), (isFirefoxReality pf); simpl;
    rewrite Hs; reflexivity.
Qed.

Lemma fetch_never_two_live pf arg r w :
  Inv pf w -> never_two_live (fetch_events pf arg r w ++ trace w).
Proof.
  intros I. pose proof (live_after_stop pf w I) as Hs.
  pose proof (inv_never pf w I) as Hn.
  pose proof (never_two_live_now _ Hn) as Hl.
  unfold fetch_events. rewrite <- !app_assoc.
  destruct (audioTrack w) as [t|] eqn:Ha; simpl in Hs;
    destruct r, (isOculusBrowser pf), (isFirefoxReality pf); simpl;
    rewrite ?Hs; simpl; repeat split; auto.
Qed.

Lemma Inv_fetchAudioTrack pf arg r w :
  Inv pf w ->
  (forall l, arg = Some l -> l < length (heap w)) ->
  Inv pf (snd (fetchAudioTrack pf arg r w)).
Proof.
  intros I Hl.
  pose proof (fetch_frame pf arg r w) as (Hmic & Hdev & Hst & Hlast).
  pose proof (fetch_tracks pf arg r w) as Ht.
  pose proof (fetch_audioTrack pf arg r w) as Ha.
  pose proof (fetch_mediaStream pf arg r w) as Hm.
  pose proof (fetch_trace pf arg r w Hl) as Htr.
  pose proof (fetch_heap pf arg r w) as Hh.
  pose proof (target_valid arg w Hl) as Hv.
  set (w' := snd (fetchAudioTrack pf arg r w)) in *.
  assert (Hlive : forall i, is_live w' i <->
            match r with Granted _ => i = length (tracks w) | Rejected _ => False end).
  { intros i. unfold is_live. rewrite Ht. destruct r as [lbl|e].
    - split.
      + intros (st & H & L).
        apply lookup_app_Some in H as [H | [Hle H]].
        * rewrite (stopped_dead pf w i st I H) in L. discriminate.
        * rewrite stopped_length in *.
          apply list_lookup_singleton_Some in H as [H _]. lia.
      + intros ->. eexists. split.
        * rewrite lookup_app_r by (rewrite stopped_length; lia).
          rewrite stopped_length, Nat.sub_diag. reflexivity.
        * reflexivity.
    - split; [|tauto]. intros (st & H & L).
      rewrite (stopped_dead pf w i st I H) in L. discriminate. }
  split.
  - intros t. rewrite Ha, Ht. destruct r; [|discriminate].
    intros [= <-]. rewrite length_app, stopped_length. simpl. lia.
  - intros i Hi. apply Hlive in Hi. rewrite Ha. destruct r; [|tauto].
    eexists; split; [reflexivity|]. simpl. congruence.
  - rewrite Hm, Ht. destruct r; [reflexivity|].
    intros Hne. apply (inv_stream pf w I). intros E.
    apply Hne. apply length_zero_iff_nil. rewrite stopped_length, E. reflexivity.
  - rewrite Hmic. apply (inv_labels pf w I).
  - rewrite Hdev. apply (inv_deviceId pf w I).
  - intros i. rewrite Htr, fetch_live_at, Hlive by exact I.
    destruct r; [|split; [intros H; inversion H | tauto]].
    rewrite list_elem_of_singleton. reflexivity.
  - rewrite Htr. apply fetch_never_two_live, I.
  - intros i st l. rewrite Ht, Hh, length_alter. intros H Hk.
    assert (Hold : stopped w !! i = Some st ->
                   isOculusBrowser pf = true /\ l < length (heap_with_default arg w)).
    { intros H'. apply stopped_hook in H' as (st0 & H0 & E0).
      rewrite <- E0 in Hk. destruct (inv_hooks pf w I i st0 l H0 Hk) as [? ?].
      split; [assumption|]. unfold heap_with_default.
      destruct arg; rewrite ?length_app; simpl; lia. }
    destruct r; [|auto].
    apply lookup_app_Some in H as [H | [_ H]]; [auto|].
    apply list_lookup_singleton_Some in H as [_ <-]. simpl in Hk.
    destruct (isOculusBrowser pf); [|discriminate].
    injection Hk as <-. auto.
  - rewrite Hm, Ht. destruct r.
    + intros E. apply app_eq_nil in E as [_ E]. discriminate.
    + intros E. apply (inv_no_stream pf w I).
      apply length_zero_iff_nil. rewrite <- stopped_length, E. reflexivity.
Qed.

Section Ended.

Variables (pf : Platform) (w : World) (t : MediaStreamTrack) (st : TrackState).
Hypothesis I : Inv pf w.
Hypothesis Hst : tracks w !! track_id t = Some st.
Hypothesis Hlive : live st = true.

Lemma ended_length : length (ended_tracks t w) = length (tracks w).
Proof. apply length_insert. Qed.

Lemma ended_dead i st' : ended_tracks t w !! i = Some st' -> live st' = false.
Proof.
  unfold ended_tracks. intros H.
  destruct (decide (track_id t = i)) as [<-|Hne].
  - rewrite list_lookup_insert_eq in H by (eapply lookup_lt_Some, Hst).
    injection H as <-. reflexivity.
  - rewrite list_lookup_insert_ne in H by exact Hne.
    destruct (live st') eqn:L; [exfalso|reflexivity].
    destruct (inv_live pf w I i) as (t1 & H1 & E1); [exists st'; auto|].
    destruct (inv_live pf w I (track_id t)) as (t2 & H2 & E2); [exists st; auto|].
    congruence.
Qed.

Lemma ended_hook i st' l :
  ended_tracks t w !! i = Some st' -> ended_once st' = Some l ->
  tracks w !! i = Some st'.
Proof.
  unfold ended_tracks. intros H K.
  destruct (decide (track_id t = i)) as [<-|Hne].
  - rewrite list_lookup_insert_eq in H by (eapply lookup_lt_Some, Hst).
    injection H as <-. discriminate.
  - rewrite list_lookup_insert_ne in H by exact Hne. exact H.
Qed.

Lemma live_after_end : live_at (EvEnded t :: trace w) = [].
Proof.
  simpl. apply filter_none. intros i Hi.
  apply (inv_trace pf w I), (inv_live pf w I) in Hi as (t1 & H1 & <-).
  destruct (inv_live pf w I (track_id t)) as (t2 & H2 & E2); [exists st; auto|].
  assert (t1 = t2) as -> by congruence.
  rewrite E2, Nat.eqb_refl. reflexivity.
Qed.

Lemma tracks_nonempty : tracks w <> [].
Proof. intros E. rewrite E in Hst. destruct (track_id t); discriminate. Qed.

Lemma Inv_ended_unhooked : Inv pf (ended_unhooked t w).
Proof.
  pose proof live_after_end as Hs.
  split; simpl.
  - intros t'. rewrite ended_length. apply (inv_known pf w I).
  - intros i (st' & H & L). simpl in H.
    rewrite (ended_dead i st' H) in L. discriminate.
  - intros _. apply (inv_stream pf w I), tracks_nonempty.
  - apply (inv_labels pf w I).
  - apply (inv_deviceId pf w I).
  - intros i. simpl in Hs. rewrite Hs. split; [intros H; inversion H|].
    intros (st' & H & L). simpl in H.
    rewrite (ended_dead i st' H) in L. discriminate.
  - simpl in Hs. rewrite Hs. simpl. split; [lia | apply (inv_never pf w I)].
  - intros i st' l H K. apply (inv_hooks pf w I i st' l); [|exact K].
    eapply ended_hook; eassumption.
  - intros E. exfalso. apply tracks_nonempty.
    apply length_zero_iff_nil. rewrite <- ended_length, E. reflexivity.
Qed.

Lemma Inv_recovered l r :
  ended_once st = Some l -> Inv pf (recovered t l r w).
Proof.
  intros Hk. pose proof live_after_end as Hs. simpl in Hs.
  destruct (inv_hooks pf w I _ _ _ Hst Hk) as [Hoc Hlt].
  assert (Hlv : forall i, is_live (recovered t l r w) i <->
            match r with Granted _ => i = length (tracks w) | Rejected _ => False end).
  { intros i. unfold is_live, recovered; simpl. destruct r as [lbl|e].
    - split.
      + intros (st' & H & L).
        apply lookup_app_Some in H as [H | [Hle H]].
        * rewrite (ended_dead i st' H) in L. discriminate.
        * rewrite ended_length in *.
          apply list_lookup_singleton_Some in H as [H _]. lia.
      + intros ->. eexists. split.
        * rewrite lookup_app_r by (rewrite ended_length; lia).
          rewrite ended_length, Nat.sub_diag. reflexivity.
        * reflexivity.
    - split; [|tauto]. intros (st' & H & L).
      rewrite (ended_dead i st' H) in L. discriminate. }
  split.
  - intros t'. unfold recovered; simpl. destruct r.
    + intros [= <-]. rewrite length_app, ended_length. simpl. lia.
    + rewrite ended_length. apply (inv_known pf w I).
  - intros i Hi. apply Hlv in Hi. destruct r; [|tauto].
    eexists; split; [reflexivity|]. simpl. congruence.
  - intros _. apply (inv_stream pf w I), tracks_nonempty.
  - apply (inv_labels pf w I).
  - apply (inv_deviceId pf w I).
  - intros i. rewrite Hlv. unfold recovered, recovery_events; simpl.
    destruct r; simpl; rewrite Hs.
    + rewrite list_elem_of_singleton. reflexivity.
    + split; [intros H; inversion H | tauto].
  - unfold recovered, recovery_events; simpl.
    destruct r; simpl; rewrite ?Hs; simpl; repeat split; auto;
      apply (inv_never pf w I).
  - intros i st' k. unfold recovered; simpl. intros H K.
    assert (Hold : ended_tracks t w !! i = Some st' ->
                   isOculusBrowser pf = true /\ k < length (heap w)).
    { intros H'. apply (inv_hooks pf w I i st' k); [|exact K].
      eapply ended_hook; eassumption. }
    destruct r; [|auto].
    apply lookup_app_Some in H as [H | [_ H]]; [auto|].
    apply list_lookup_singleton_Some in H as [_ <-]. simpl in K.
    injection K as <-. auto.
  - unfold recovered; simpl. intros E. exfalso. apply tracks_nonempty.
    apply length_zero_iff_nil. rewrite <- ended_length.
    destruct r; [apply app_eq_nil in E as [E _]|]; rewrite E; reflexivity.
Qed.

End Ended.

Lemma Inv_track_ended pf t r w :
  Inv pf w -> Inv pf (snd (track_ended t r w)).
Proof.
  intros I.
  destruct (tracks w !! track_id t) as [st|] eqn:E.
  - destruct (live st) eqn:L.
    + destruct (ended_once st) as [l|] eqn:K.
      * rewrite (track_ended_hooked t r w st l E L K).
        eapply Inv_recovered; eassumption.
      * rewrite (track_ended_unhooked t r w st E L K).
        eapply Inv_ended_unhooked; eassumption.
    + rewrite track_ended_idle; [exact I|]. congruence.
  - rewrite track_ended_idle; [exact I|]. congruence.
Qed.

Lemma Inv_setupNewMediaStream pf devs w :
  Inv pf w -> Inv pf (snd (setupNewMediaStream devs w)).
Proof.
  intros I.
  pose proof (setup_frame devs w) as (Hmic & Ha & Hm & Ht & Hh & _ & Hd & _).
  apply (Inv_frame pf w); try assumption.
  - rewrite Hmic. apply directory_labels.
  - rewrite Hh. lia.
  - rewrite setup_trace. eexists. split.
    + rewrite cons_middle, app_assoc. reflexivity.
    + rewrite forallb_app. simpl. rewrite andb_true_r.
      destruct (audioTrack w); simpl; [|reflexivity].
      destruct (truthy _); reflexivity.
Qed.

Lemma Inv_fetchMicDevices pf devs w :
  Inv pf w -> Inv pf (snd (fetchMicDevices devs w)).
Proof.
  intros I. apply (Inv_frame pf w); try assumption; try reflexivity.
  - apply directory_labels.
  - exists [EvEnumerateDevices]. split; reflexivity.
Qed.

Lemma Inv_onDeviceChange pf devs w :
  Inv pf w -> Inv pf (snd (onDeviceChange devs w)).
Proof.
  intros I. apply (Inv_frame pf w); try assumption; try reflexivity.
  - apply directory_labels.
  - exists [EvEmit "devicechange"; EvEnumerateDevices]. split; reflexivity.
Qed.

Lemma Inv_alloc pf c w : Inv pf w -> Inv pf (snd (alloc c w)).
Proof.
  intros I. apply (Inv_frame pf w); try assumption; try reflexivity.
  - apply (inv_labels pf w I).
  - simpl. rewrite length_app. lia.
  - exists []. split; reflexivity.
Qed.

Lemma Inv_assign pf l f w : Inv pf w -> Inv pf (snd (assign l f w)).
Proof.
  intros I. apply (Inv_frame pf w); try assumption; try reflexivity.
  - apply (inv_labels pf w I).
  - simpl. rewrite length_alter. lia.
  - exists []. split; reflexivity.
Qed.

Lemma Inv_selectMicDevice pf id r devs w :
  Inv pf w -> Inv pf (snd (selectMicDevice pf id r devs w)).
Proof.
  intros I. rewrite selectMicDevice_run. simpl snd at 1.
  apply Inv_setupNewMediaStream, Inv_fetchAudioTrack; [apply Inv_alloc, I|].
  intros l [= <-]. simpl. rewrite length_app. simpl. lia.
Qed.

Lemma Inv_setMediaStreamToDefault pf r devs w :
  Inv pf w -> Inv pf (snd (setMediaStreamToDefault pf r devs w)).
Proof.
  intros I. rewrite setMediaStreamToDefault_run. simpl snd at 1.
  apply Inv_setupNewMediaStream, Inv_fetchAudioTrack; [apply Inv_alloc, I|].
  intros l [= <-]. simpl. rewrite length_app. simpl. lia.
Qed.

(** Every reachable world satisfies the invariant. *)
Lemma reachable_Inv pf w : reachable pf w -> Inv pf w.
Proof.
  induction 1.
  - apply Inv_init.
  - apply Inv_selectMicDevice; assumption.
  - apply Inv_setMediaStreamToDefault; assumption.
  - apply Inv_fetchAudioTrack; assumption.
  - apply Inv_setupNewMediaStream; assumption.
  - apply Inv_fetchMicDevices; assumption.
  - apply Inv_onDeviceChange; assumption.
  - apply Inv_track_ended; assumption.
  - apply Inv_alloc; assumption.
  - apply Inv_assign; assumption.
  - apply (Inv_frame pf w); try assumption; try reflexivity.
    + apply (inv_labels pf w IHreachable).
    + exists []. split; reflexivity.
  - apply (Inv_frame pf w); try assumption; try reflexivity.
    + apply (inv_labels pf w IHreachable).
    + exists []. split; reflexivity.
Qed.

(** ** C1: the active track and the outbound stream *)

Lemma reachable_after_grant : reachable desktop after_grant.
Proof.
  apply reach_fetchAudioTrack; [apply reach_init | intros l H; discriminate].
Qed.

Lemma reachable_after_denial : reachable desktop after_denial.
Proof.
  apply reach_fetchAudioTrack;
    [apply reachable_after_grant | intros l H; discriminate].
Qed.

(** C1, as stated, fails: a granted capture followed by a denied one is a
    failing [fetchAudioTrack] that leaves [audioTrack] empty while
    [mediaStream] still holds the outbound stream, so the two fields are not
    coupled in that reachable world. *)
Lemma C1_counterexample :
  reachable desktop after_denial /\
  fst (fetchAudioTrack desktop None (Rejected NotAllowedError) after_grant) = false /\
  audioTrack after_denial = None /\
  mediaStream after_denial = Some OutboundStream /\
  ~ coupled after_denial.
Proof.
  split; [apply reachable_after_denial|].
  split; [reflexivity|]. split; [reflexivity|]. split; [reflexivity|].
  intros [H _]. apply H; [discriminate | reflexivity].
Qed.

(** C1, amended: in every reachable world a non-empty [audioTrack] comes
    with a non-empty [mediaStream], and [mediaStream] is non-empty exactly
    when a capture has been granted since construction; a failing
    [fetchAudioTrack] leaves [audioTrack] empty and [mediaStream] as it
    was. *)
Theorem C1_track_implies_stream pf w :
  reachable pf w ->
  (audioTrack w <> None -> mediaStream w <> None) /\
  (mediaStream w <> None <-> tracks w <> []) /\
  (forall arg e,
     valid_arg arg w ->
     let res := fetchAudioTrack pf arg (Rejected e) w in
     fst res = false /\
     audioTrack (snd res) = None /\
     mediaStream (snd res) = mediaStream w).
Proof.
  intros R. pose proof (reachable_Inv pf w R) as I.
  assert (Hs : mediaStream w <> None <-> tracks w <> []).
  { split.
    - intros H E. apply H, (inv_no_stream pf w I), E.
    - intros H. rewrite (inv_stream pf w I H). discriminate. }
  split; [|split; [exact Hs|]].
  - intros Ha. apply Hs. intros E.
    destruct (audioTrack w) as [t|] eqn:Et; [|congruence].
    pose proof (inv_known pf w I t Et) as Hk. rewrite E in Hk. simpl in Hk. lia.
  - intros arg e Hv. simpl.
    rewrite fetch_result, fetch_audioTrack, fetch_mediaStream. auto.
Qed.

Lemma C1_track_implies_stream_witness :
  (audioTrack after_denial <> None -> mediaStream after_denial <> None) /\
  (mediaStream after_denial <> None <-> tracks after_denial <> []) /\
  (forall arg e,
     valid_arg arg after_denial ->
     let res := fetchAudioTrack desktop arg (Rejected e) after_denial in
     fst res = false /\
     audioTrack (snd res) = None /\
     mediaStream (snd res) = mediaStream after_denial).
Proof.
  apply (C1_track_implies_stream desktop after_denial).
  apply reach_fetchAudioTrack;
    [apply reach_fetchAudioTrack; [apply reach_init | intros l H; discriminate]
    | intros l H; discriminate].
Defined.

(** ** C5: one capture at a time *)

Lemma requests_app es tr : requests (es ++ tr) = requests es ++ requests tr.
Proof.
  induction es as [|e es IH]; simpl; [reflexivity|].
  destruct e; simpl; rewrite IH; reflexivity.
Qed.

Lemma stops_app es tr : stops (es ++ tr) = stops es ++ stops tr.
Proof.
  induction es as [|e es IH]; simpl; [reflexivity|].
  destruct e; simpl; rewrite IH; reflexivity.
Qed.

Lemma never_two_live_suffix tr past :
  never_two_live tr -> past `suffix_of` tr -> length (live_at past) <= 1.
Proof.
  intros H [k ->]. induction k as [|e k IH]; simpl in *.
  - apply never_two_live_now, H.
  - apply IH, H.
Qed.

(** The events of [fetchAudioTrack] when a track is active: the stop of that
    track is the oldest, and the one request comes after it. *)
Lemma fetch_events_stop_first pf arg r w t :
  audioTrack w = Some t ->
  exists after c,
    fetch_events pf arg r w = after ++ [EvGetUserMedia (target arg w) c] ++
                              (if isFirefoxReality pf
                               then [EvUpdatePreferences (written_back pf (preferences w))]
                               else []) ++ [EvStop t] /\
    stops after = [] /\ requests after = [].
Proof.
  intros Ha. unfold fetch_events. rewrite Ha.
  exists (match r with
          | Granted lbl =>
              (if isOculusBrowser pf
               then [EvAddEndedListener (next_track w lbl) (target arg w)] else []) ++
              [EvAddStreamToOutboundAudio "microphone" (CaptureStream (next_track w lbl));
               EvCaptured (next_track w lbl)]
          | Rejected _ => [EvConsole log_error "Error during getUserMedia: "]
          end).
  eexists. split; [reflexivity|].
  destruct r, (isOculusBrowser pf); simpl; auto.
Qed.

Lemma setup_events_quiet devs w :
  exists es, trace (snd (setupNewMediaStream devs w)) = es ++ trace w /\
             stops es = [] /\ requests es = [].
Proof.
  rewrite setup_trace. eexists. split.
  - rewrite cons_middle, app_assoc. reflexivity.
  - rewrite stops_app, requests_app.
    destruct (audioTrack w); simpl; [destruct (truthy _)|]; simpl; auto.
Qed.

Lemma selectMicDevice_world pf id r devs w :
  snd (selectMicDevice pf id r devs w) =
  snd (setupNewMediaStream devs
         (snd (fetchAudioTrack pf (Some (length (heap w))) r
                 (snd (alloc (exact_device id) w))))).
Proof. rewrite selectMicDevice_run. reflexivity. Qed.

Lemma fetch_events_stops pf arg r w :
  stops (fetch_events pf arg r w) =
  match audioTrack w with Some t => [t] | None => [] end.
Proof.
  unfold fetch_events. rewrite !stops_app.
  destruct r, (isOculusBrowser pf), (isFirefoxReality pf), (audioTrack w);
    reflexivity.
Qed.

Lemma selectMicDevice_stops pf id r devs w :
  stops (trace (snd (selectMicDevice pf id r devs w))) =
  match audioTrack w with Some t => [t] | None => [] end ++ stops (trace w).
Proof.
  rewrite selectMicDevice_world.
  destruct (setup_events_quiet devs
              (snd (fetchAudioTrack pf (Some (length (heap w))) r
                      (snd (alloc (exact_device id) w)))))
    as (es & -> & Hs & _).
  rewrite stops_app, Hs, fetch_trace, stops_app, fetch_events_stops.
  - reflexivity.
  - intros l [= <-]. simpl. rewrite length_app. simpl. lia.
Qed.

(** *** The methods split at the [await] of their capture *)

Ltac run_split :=
  unfold selectMicDevice_request, selectMicDevice_settled,
    fetchAudioTrack_request, fetchAudioTrack_settled,
    getUserMedia_request, getUserMedia_settle;
  run.

Ltac request_cases pf arg w :=
  run_split;
  destruct arg; simpl;
  destruct (audioTrack w) eqn:?; simpl;
  destruct (isFirefoxReality pf) eqn:?; simpl.

(** A call that nothing overlaps is its two halves, one after the other. *)
Lemma fetchAudioTrack_split pf arg r w :
  fetchAudioTrack pf arg r w =
  fetchAudioTrack_settled pf (fst (fetchAudioTrack_request pf arg w)) r
    (snd (fetchAudioTrack_request pf arg w)).
Proof.
  run_split.
  destruct arg; simpl;
    destruct (audioTrack w) eqn:?; simpl;
    destruct (isFirefoxReality pf) eqn:?; simpl;
    destruct r; simpl;
    try (destruct (isOculusBrowser pf) eqn:?; simpl);
    reflexivity.
Qed.

Lemma fetch_request_target pf arg w :
  fst (fetchAudioTrack_request pf arg w) = target arg w.
Proof. request_cases pf arg w; reflexivity. Qed.

Lemma selectMicDevice_split pf id r devs w :
  selectMicDevice pf id r devs w =
  selectMicDevice_settled pf (fst (selectMicDevice_request pf id w)) r devs
    (snd (selectMicDevice_request pf id w)).
Proof.
  unfold selectMicDevice, selectMicDevice_request, selectMicDevice_settled.
  rewrite !bind_run, fetchAudioTrack_split. reflexivity.
Qed.

Lemma fetch_request_tracks pf arg w :
  tracks (snd (fetchAudioTrack_request pf arg w)) = stopped w.
Proof. unfold stopped. request_cases pf arg w; reflexivity. Qed.

Lemma fetch_request_trace pf arg w :
  valid_arg arg w ->
  trace (snd (fetchAudioTrack_request pf arg w)) =
  [EvGetUserMedia (target arg w)
     (constrain pf (preferences w)
        (default audio_empty (heap_with_default arg w !! target arg w)))] ++
  (if isFirefoxReality pf
   then [EvUpdatePreferences (written_back pf (preferences w))] else []) ++
  match audioTrack w with
  | Some t => [EvStop t]
  | None => []
  end ++ trace w.
Proof.
  intros Hl. pose proof (target_valid arg w Hl) as Hv.
  unfold target, heap_with_default, written_back in *.
  request_cases pf arg w;
    match goal with E : isFirefoxReality pf = _ |- _ => fold_alters pf E end;
    rewrite !constrained_lookup by exact Hv; reflexivity.
Qed.

(** C5, as stated, fails: nothing keeps a call from starting while another
    waits for its capture.  Of two [selectMicDevice] calls that overlap on a
    manager with an active track, each stops that same track, the one
    [audioTrack] holds until a capture settles; both captures are granted,
    and when both calls have returned two tracks are capturing, one of them
    no longer known to the manager. *)
Lemma C5_counterexample :
  audioTrack after_grant = Some {| track_id := 0; track_label := "Generic Mic" |} /\
  fst (selectMicDevice_request desktop "mic-42" after_grant) = 1 /\
  fst (selectMicDevice_request desktop "mic-42" first_waiting) = 2 /\
  stops (trace overlapped) =
    [{| track_id := 0; track_label := "Generic Mic" |};
     {| track_id := 0; track_label := "Generic Mic" |}] /\
  audioTrack overlapped = Some {| track_id := 2; track_label := "Generic Mic" |} /\
  is_live overlapped 1 /\ is_live overlapped 2 /\
  live_at (trace overlapped) = [2; 1] /\
  ~ (forall past, past `suffix_of` trace overlapped -> length (live_at past) <= 1).
Proof.
  split; [reflexivity|]. split; [reflexivity|]. split; [reflexivity|].
  split; [reflexivity|]. split; [reflexivity|].
  split; [exists unhooked; split; reflexivity|].
  split; [exists unhooked; split; reflexivity|].
  split; [reflexivity|].
  intros H.
  assert (Hs : trace overlapped `suffix_of` trace overlapped)
    by (exists []; reflexivity).
  specialize (H (trace overlapped) Hs). change (2 <= 1) in H. lia.
Qed.

(** C5, amended: every call of [fetchAudioTrack] with a track active calls
    [stop()] on that track before it issues its capture request, in any
    world.  In a history of serialised calls, each running to its return
    before the next event is handled, [fetchAudioTrack] and [selectMicDevice]
    stop that one track and no other (with no track active there is none to
    stop), and at no moment were two of the tracks handed out to the manager
    capturing: at most one track is capturing, and it is the active one. *)
Theorem C5_one_capture_at_a_time pf w :
  (forall t arg,
     valid_arg arg w -> audioTrack w = Some t ->
     exists before c,
       trace (snd (fetchAudioTrack_request pf arg w)) =
         [EvGetUserMedia (target arg w) c] ++ before ++ [EvStop t] ++ trace w /\
       stops before = [] /\ requests before = []) /\
  (reachable pf w ->
   (forall t arg r,
      valid_arg arg w -> audioTrack w = Some t ->
      exists after before c,
        trace (snd (fetchAudioTrack pf arg r w)) =
          after ++ [EvGetUserMedia (target arg w) c] ++ before ++ [EvStop t] ++ trace w /\
        stops after = [] /\ stops before = [] /\
        requests after = [] /\ requests before = []) /\
   (forall t id r devs,
      audioTrack w = Some t ->
      stops (trace (snd (selectMicDevice pf id r devs w))) = t :: stops (trace w) /\
      exists es,
        trace (snd (selectMicDevice pf id r devs w)) = es ++ [EvStop t] ++ trace w /\
        stops es = [] /\ length (requests es) = 1) /\
   (forall id r devs,
      audioTrack w = None ->
      stops (trace (snd (selectMicDevice pf id r devs w))) = stops (trace w)) /\
   (forall past, past `suffix_of` trace w -> length (live_at past) <= 1) /\
   (forall i, i ∈ live_at (trace w) <-> is_live w i) /\
   (forall i, is_live w i -> exists t, audioTrack w = Some t /\ track_id t = i) /\
   (forall i j, is_live w i -> is_live w j -> i = j)).
Proof.
  split.
  { intros t arg Hv Ha. rewrite (fetch_request_trace pf arg w Hv), Ha.
    exists (if isFirefoxReality pf
            then [EvUpdatePreferences (written_back pf (preferences w))]
            else []).
    eexists. split; [reflexivity|].
    destruct (isFirefoxReality pf); simpl; auto. }
  intros R. pose proof (reachable_Inv pf w R) as I.
  split; [|split; [|split; [|split; [|split; [|split]]]]].
  - intros t arg r Hv Ha.
    destruct (fetch_events_stop_first pf arg r w t Ha) as (after & c & E & Hs & Hr).
    rewrite (fetch_trace pf arg r w Hv), E.
    exists after, (if isFirefoxReality pf
                   then [EvUpdatePreferences (written_back pf (preferences w))]
                   else []), c.
    split; [rewrite <- !app_assoc; reflexivity|].
    destruct (isFirefoxReality pf); simpl; auto.
  - intros t id r devs Ha.
    split; [rewrite selectMicDevice_stops, Ha; reflexivity|].
    rewrite selectMicDevice_world.
    set (w0 := snd (alloc (exact_device id) w)).
    assert (Hv : valid_arg (Some (length (heap w))) w0).
    { intros l [= <-]. simpl. rewrite length_app. simpl. lia. }
    destruct (setup_events_quiet devs
                (snd (fetchAudioTrack pf (Some (length (heap w))) r w0)))
      as (es2 & E2 & Hs2 & Hr2).
    destruct (fetch_events_stop_first pf (Some (length (heap w))) r w0 t Ha)
      as (after & c & E & Hs & Hr).
    rewrite E2, (fetch_trace pf _ r w0 Hv), E.
    exists (es2 ++ after ++ [EvGetUserMedia (target (Some (length (heap w))) w0) c] ++
            (if isFirefoxReality pf
             then [EvUpdatePreferences (written_back pf (preferences w0))]
             else [])).
    split; [rewrite <- !app_assoc; reflexivity|].
    rewrite !stops_app, !requests_app, Hs2, Hr2, Hs, Hr.
    destruct (isFirefoxReality pf); simpl; auto.
  - intros id r devs Ha. rewrite selectMicDevice_stops, Ha. reflexivity.
  - intros past. apply never_two_live_suffix, (inv_never pf w I).
  - apply (inv_trace pf w I).
  - apply (inv_live pf w I).
  - intros i j Hi Hj.
    destruct (inv_live pf w I i Hi) as (t1 & H1 & <-).
    destruct (inv_live pf w I j Hj) as (t2 & H2 & <-).
    congruence.
Qed.

Lemma C5_one_capture_at_a_time_witness :
  reachable desktop after_grant /\
  audioTrack after_grant = Some {| track_id := 0; track_label := "Generic Mic" |} /\
  stops (trace (snd (selectMicDevice desktop "mic-1" (Granted "Generic Mic") []
                       after_grant))) =
    [{| track_id := 0; track_label := "Generic Mic" |}] /\
  (forall past, past `suffix_of` trace after_grant -> length (live_at past) <= 1).
Proof.
  assert (R : reachable desktop after_grant).
  { apply reach_fetchAudioTrack; [apply reach_init | intros l H; discriminate]. }
  destruct (C5_one_capture_at_a_time desktop after_grant) as (_ & H0).
  destruct (H0 R) as (_ & H & _ & Hp & _).
  split; [exact R|]. split; [reflexivity|]. split; [|exact Hp].
  apply (H {| track_id := 0; track_label := "Generic Mic" |} "mic-1"
           (Granted "Generic Mic") [] eq_refl).
Defined.

(** ** C3: the inverted polarity of Firefox Reality *)

Lemma fetch_request pf arg r w :
  valid_arg arg w ->
  requests (trace (snd (fetchAudioTrack pf arg r w))) =
  (target arg w,
   constrain pf (preferences w)
     (default audio_empty (heap_with_default arg w !! target arg w)))
  :: requests (trace w).
Proof.
  intros Hv. rewrite (fetch_trace pf arg r w Hv), requests_app.
  unfold fetch_events. rewrite !requests_app.
  destruct r, (isOculusBrowser pf), (isFirefoxReality pf), (audioTrack w);
    reflexivity.
Qed.

Lemma toggle_written_back pf flag :
  isFirefoxReality pf = true ->
  toggle pf (Some (negb (toggle pf flag))) = toggle pf flag.
Proof.
  intros E. unfold toggle. rewrite E. destruct flag as [[|]|]; reflexivity.
Qed.

(** C3: on Firefox Reality each toggle of the request is enabled only if its
    disable flag is [false] itself (an absent [disableEchoCancellation]
    gives [echoCancellation = false]); the store receives
    [disableFlag = !toggle]; and a second run, over any object, requests the
    same three toggles and leaves the stored preferences as the first run
    wrote them. *)
Theorem C3_firefox_reality_polarity pf w l r :
  isFirefoxReality pf = true ->
  l < length (heap w) ->
  let p := preferences w in
  let w1 := snd (fetchAudioTrack pf (Some l) r w) in
  exists c1,
    requests (trace w1) = (l, c1) :: requests (trace w) /\
    heap w1 !! l = Some c1 /\
    echoCancellation c1 = Some (strictly_false (disableEchoCancellation p)) /\
    noiseSuppression c1 = Some (strictly_false (disableNoiseSuppression p)) /\
    autoGainControl c1 = Some (strictly_false (disableAutoGainControl p)) /\
    (disableEchoCancellation p = None -> echoCancellation c1 = Some false) /\
    preferences w1 =
      {| disableEchoCancellation := Some (negb (strictly_false (disableEchoCancellation p)));
         disableNoiseSuppression := Some (negb (strictly_false (disableNoiseSuppression p)));
         disableAutoGainControl := Some (negb (strictly_false (disableAutoGainControl p))) |} /\
    forall l' r',
      l' < length (heap w1) ->
      let w2 := snd (fetchAudioTrack pf (Some l') r' w1) in
      exists c2,
        requests (trace w2) = (l', c2) :: requests (trace w1) /\
        echoCancellation c2 = echoCancellation c1 /\
        noiseSuppression c2 = noiseSuppression c1 /\
        autoGainControl c2 = autoGainControl c1 /\
        (l' = l -> c2 = c1) /\
        preferences w2 = preferences w1.
Proof.
  intros E Hl p w1.
  assert (Hv : valid_arg (Some l) w) by (intros ? [= <-]; exact Hl).
  destruct (lookup_lt_is_Some_2 (heap w) l Hl) as [c0 Hc0].
  assert (Hp1 : preferences w1 = written_back pf p).
  { unfold w1. rewrite fetch_preferences by exact Hv. rewrite E. reflexivity. }
  assert (Hh1 : heap w1 !! l = Some (constrain pf p c0)).
  { unfold w1. rewrite fetch_heap. unfold heap_with_default, target.
    rewrite list_lookup_alter_eq, Hc0. reflexivity. }
  exists (constrain pf p c0).
  split; [|split; [exact Hh1|]].
  { unfold w1. rewrite fetch_request by exact Hv.
    unfold heap_with_default, target. rewrite Hc0. reflexivity. }
  unfold constrain, toggle; rewrite E; simpl.
  split; [reflexivity|]. split; [reflexivity|]. split; [reflexivity|].
  split; [intros ->; reflexivity|].
  split; [rewrite Hp1; unfold written_back, toggle; rewrite E; reflexivity|].
  intros l' r' Hl'.
  assert (Hv' : valid_arg (Some l') w1) by (intros ? [= <-]; exact Hl').
  destruct (lookup_lt_is_Some_2 (heap w1) l' Hl') as [c' Hc'].
  assert (Ht : forall flag, toggle pf (Some (negb (toggle pf flag))) = strictly_false flag).
  { intros flag. rewrite toggle_written_back by exact E.
    unfold toggle. rewrite E. reflexivity. }
  exists (constrain pf (preferences w1) c').
  split.
  { rewrite fetch_request by exact Hv'.
    unfold heap_with_default, target. rewrite Hc'. reflexivity. }
  rewrite Hp1. unfold constrain, written_back. simpl. rewrite !Ht.
  split; [reflexivity|]. split; [reflexivity|]. split; [reflexivity|].
  split.
  - intros ->. rewrite Hh1 in Hc'. injection Hc' as <-. reflexivity.
  - rewrite fetch_preferences by exact Hv'. rewrite E, Hp1.
    unfold written_back; simpl. rewrite !toggle_written_back by exact E.
    reflexivity.
Qed.

Lemma C3_firefox_reality_polarity_witness :
  isFirefoxReality firefox_reality = true /\
  0 < length (heap fxr_start) /\
  exists c1,
    requests (trace (snd (fetchAudioTrack firefox_reality (Some 0)
                            (Granted "Headset Mic") fxr_start))) = [(0, c1)] /\
    echoCancellation c1 = Some false /\
    disableEchoCancellation
      (preferences (snd (fetchAudioTrack firefox_reality (Some 0)
                           (Granted "Headset Mic") fxr_start))) = Some true.
Proof.
  split; [reflexivity|]. split; [simpl; lia|].
  destruct (C3_firefox_reality_polarity firefox_reality fxr_start 0
              (Granted "Headset Mic") eq_refl (Nat.lt_0_succ 0))
    as (c1 & Hr & _ & _ & _ & _ & Hec & Hp & _).
  exists c1. split; [exact Hr|]. split; [apply Hec; reflexivity|].
  rewrite Hp. reflexivity.
Defined.

(** ** C6 and C7: the default session and the selection of a device *)

Lemma setMediaStreamToDefault_world pf r devs w :
  snd (setMediaStreamToDefault pf r devs w) =
  snd (setupNewMediaStream devs
         (snd (fetchAudioTrack pf (Some (length (heap w))) r
                 (snd (alloc (if truthy (lastUsedMicDeviceId w)
                              then ideal_device (default "" (lastUsedMicDeviceId w))
                              else audio_empty) w))))).
Proof. rewrite setMediaStreamToDefault_run. reflexivity. Qed.

Lemma alloc_valid c w : valid_arg (Some (length (heap w))) (snd (alloc c w)).
Proof. intros l [= <-]. simpl. rewrite length_app. simpl. lia. Qed.

(** The request of a fetch over an object that was just built. *)
Lemma fetch_new_object_request pf r c w :
  requests (trace (snd (fetchAudioTrack pf (Some (length (heap w))) r (snd (alloc c w))))) =
  (length (heap w), constrain pf (preferences w) c) :: requests (trace w).
Proof.
  rewrite fetch_request by apply alloc_valid.
  unfold heap_with_default, target. simpl.
  rewrite lookup_app_r by lia. rewrite Nat.sub_diag. reflexivity.
Qed.

Lemma setup_requests devs w :
  requests (trace (snd (setupNewMediaStream devs w))) = requests (trace w).
Proof.
  destruct (setup_events_quiet devs w) as (es & -> & _ & Hr).
  rewrite requests_app, Hr. reflexivity.
Qed.




(** ** C8: the selected device id is looked up, not stored *)

(** [l.filter(f).map(g)[0]] is [g] of the first element that satisfies [f]. *)
Lemma first_match_Some {A B : Type} (f : A -> bool) (g : A -> B) (l : list A) (y : B) :
  head (map g (List.filter f l)) = Some y <->
  exists pre d post,
    l = pre ++ d :: post /\ f d = true /\ g d = y /\
    Forall (fun x => f x = false) pre.
Proof.
  induction l as [|a l IH]; simpl.
  - split; [discriminate|]. intros (pre & d & post & E & _).
    destruct pre; discriminate.
  - destruct (f a) eqn:Fa; simpl.
    + split.
      * intros [= <-]. exists [], a, l. auto.
      * intros (pre & d & post & E & Fd & <- & Hpre).
        destruct pre as [|x pre]; simpl in E; injection E as -> ->.
        -- reflexivity.
        -- apply Forall_cons in Hpre as [Hx _]. congruence.
    + rewrite IH. split.
      * intros (pre & d & post & -> & Fd & <- & Hpre).
        exists (a :: pre), d, post. repeat split; auto.
      * intros (pre & d & post & E & Fd & <- & Hpre).
        destruct pre as [|x pre]; simpl in E; injection E as -> ->.
        -- congruence.
        -- apply Forall_cons in Hpre as [_ Hpre]. exists pre, d, post. auto.
Qed.

Lemma first_match_None {A B : Type} (f : A -> bool) (g : A -> B) (l : list A) :
  head (map g (List.filter f l)) = None <-> Forall (fun x => f x = false) l.
Proof.
  induction l as [|a l IH]; simpl.
  - split; auto.
  - destruct (f a) eqn:Fa; simpl.
    + split; [discriminate|]. intros [H _]%Forall_cons. congruence.
    + rewrite IH. split; [auto|]. intros [_ H]%Forall_cons. exact H.
Qed.

(** C8: [selectedMicDeviceId] is a function of the active track and the
    cached devices (the field [_deviceId] stays [null]); after a granted
    fetch the selected label is the label of the new track and the selected
    id is the [value] of the first cached device with that label; with no
    cached device of that label, and also with no active track, it is
    undefined.  The getter is total: it cannot throw. *)
Theorem C8_selected_device_id pf w arg lbl :
  reachable pf w ->
  valid_arg arg w ->
  let w' := snd (fetchAudioTrack pf arg (Granted lbl) w) in
  (forall w1 w2, audioTrack w1 = audioTrack w2 -> micDevices w1 = micDevices w2 ->
                 selectedMicDeviceId w1 = selectedMicDeviceId w2) /\
  deviceId w = None /\ deviceId w' = None /\
  selectedMicLabel w' = lbl /\
  (forall id,
     selectedMicDeviceId w' = Some id <->
     exists pre d post,
       micDevices w' = pre ++ d :: post /\ label d = lbl /\ value d = id /\
       Forall (fun x => label x <> lbl) pre) /\
  ((forall d, d ∈ micDevices w' -> label d <> lbl) -> selectedMicDeviceId w' = None) /\
  (audioTrack w = None -> selectedMicLabel w = "" /\ selectedMicDeviceId w = None).
Proof.
  intros R Hv w'.
  pose proof (reachable_Inv pf w R) as I.
  assert (R' : reachable pf w') by (apply reach_fetchAudioTrack; assumption).
  assert (Hl : selectedMicLabel w' = lbl).
  { unfold selectedMicLabel, w'. rewrite fetch_audioTrack. reflexivity. }
  split; [|split; [|split; [|split; [|split; [|split]]]]].
  - intros w1 w2 Ha Hm. unfold selectedMicDeviceId, selectedMicLabel,
      micDeviceIdForMicLabel. rewrite Ha, Hm. reflexivity.
  - apply (inv_deviceId pf w I).
  - apply (inv_deviceId pf w' (reachable_Inv pf w' R')).
  - exact Hl.
  - intros id. unfold selectedMicDeviceId, micDeviceIdForMicLabel.
    rewrite Hl, first_match_Some. split.
    + intros (pre & d & post & E & Fd & Hd & Hpre).
      exists pre, d, post. repeat split; auto.
      * apply String.eqb_eq, Fd.
      * eapply Forall_impl; [exact Hpre|]. intros x. apply String.eqb_neq.
    + intros (pre & d & post & E & Fd & Hd & Hpre).
      exists pre, d, post. repeat split; auto.
      * apply String.eqb_eq, Fd.
      * eapply Forall_impl; [exact Hpre|]. intros x. apply String.eqb_neq.
  - intros Hno. unfold selectedMicDeviceId, micDeviceIdForMicLabel.
    rewrite Hl, first_match_None. apply Forall_forall. intros d Hd.
    apply String.eqb_neq, Hno, Hd.
  - intros Ha. unfold selectedMicDeviceId, selectedMicLabel, micDeviceIdForMicLabel.
    rewrite Ha. simpl. split; [reflexivity|].
    rewrite first_match_None.
    eapply Forall_impl; [apply (inv_labels pf w I)|].
    intros d. apply String.eqb_neq.
Qed.

Lemma C8_selected_device_id_witness :
  reachable desktop with_directory /\
  valid_arg None with_directory /\
  selectedMicDeviceId
    (snd (fetchAudioTrack desktop None (Granted "Generic Mic") with_directory))
  = Some "mic-42" /\
  selectedMicDeviceId
    (snd (fetchAudioTrack desktop None (Granted "Other Mic") with_directory))
  = None.
Proof.
  assert (R : reachable desktop with_directory)
    by (apply reach_fetchMicDevices, reach_init).
  assert (V : valid_arg None with_directory) by (intros l H; discriminate).
  split; [exact R|]. split; [exact V|]. split.
  - pose proof (C8_selected_device_id desktop with_directory None "Generic Mic" R V) as H.
    cbv zeta in H. destruct H as (_ & _ & _ & _ & H & _).
    apply H. exists [], {| value := "mic-42"; label := "Generic Mic" |}, [].
    repeat split; constructor.
  - pose proof (C8_selected_device_id desktop with_directory None "Other Mic" R V) as H.
    cbv zeta in H. destruct H as (_ & _ & _ & _ & _ & H & _).
    apply H. intros d Hd. apply list_elem_of_singleton in Hd. subst d. discriminate.
Defined.

(** ** C9: the housekeeping after a selection *)

(** C9: with no active track [setupNewMediaStream] refreshes the directory
    and logs, and neither writes the store nor emits; with an active track
    whose label the refreshed directory resolves to a device id, it stores
    that id as [lastUsedMicDeviceId] and then emits
    "local-media-stream-created". *)
Theorem C9_housekeeping devs w :
  let w' := snd (setupNewMediaStream devs w) in
  micDevices w' = directory devs /\
  (audioTrack w = None ->
     trace w' = [EvConsole log_info "No available audio tracks"; EvEnumerateDevices]
                ++ trace w /\
     lastUsedMicDeviceId w' = lastUsedMicDeviceId w /\
     preferences w' = preferences w) /\
  (forall t id,
     audioTrack w = Some t ->
     micDeviceIdForMicLabel (with_micDevices (directory devs) w)
       (micLabelForAudioTrack (Some t)) = Some id ->
     id <> "" ->
     lastUsedMicDeviceId w' = Some id /\
     exists msg,
       trace w' = [EvEmit "local-media-stream-created"; EvConsole log_info msg;
                   EvUpdateSettings id; EvEnumerateDevices] ++ trace w).
Proof.
  intros w'.
  pose proof (setup_frame devs w) as (Hmic & _ & _ & _ & _ & Hp & _).
  split; [exact Hmic|]. split.
  - intros Ha. unfold w'. rewrite setup_trace, setup_lastUsed, Ha.
    repeat split. exact Hp.
  - intros t id Ha Hid Hne. unfold micDeviceIdForMicLabel in Hid. simpl in Hid.
    unfold w'. rewrite setup_trace, setup_lastUsed, Ha. cbv zeta.
    rewrite Hid. simpl.
    apply String.eqb_neq in Hne. rewrite Hne. simpl.
    split; [reflexivity|]. eexists. reflexivity.
Qed.

Lemma C9_housekeeping_witness :
  audioTrack fresh = None /\
  trace (snd (setupNewMediaStream one_microphone fresh)) =
    [EvConsole log_info "No available audio tracks"; EvEnumerateDevices] /\
  audioTrack after_grant = Some {| track_id := 0; track_label := "Generic Mic" |} /\
  "mic-42" <> "" /\
  lastUsedMicDeviceId (snd (setupNewMediaStream one_microphone after_grant)) = Some "mic-42".
Proof.
  split; [reflexivity|]. split; [|split; [reflexivity|split; [discriminate|]]].
  - pose proof (C9_housekeeping one_microphone fresh) as H.
    cbv zeta in H. destruct H as (_ & H & _).
    destruct (H eq_refl) as (Ht & _). exact Ht.
  - pose proof (C9_housekeeping one_microphone after_grant) as H.
    cbv zeta in H. destruct H as (_ & _ & H).
    destruct (H {| track_id := 0; track_label := "Generic Mic" |} "mic-42" eq_refl eq_refl)
      as (Hl & _); [discriminate | exact Hl].
Defined.

(** ** C4: the recovery hook of the Oculus browser *)

Lemma fetch_new_track pf arg lbl w :
  tracks (snd (fetchAudioTrack pf arg (Granted lbl) w)) !! length (tracks w) =
  Some (if isOculusBrowser pf then hooked (target arg w) else unhooked).
Proof.
  rewrite fetch_tracks.
  rewrite list_lookup_middle by (rewrite stopped_length; reflexivity).
  destruct (isOculusBrowser pf); reflexivity.
Qed.

Lemma fetch_heap_lookup pf arg r w :
  valid_arg arg w ->
  heap (snd (fetchAudioTrack pf arg r w)) !! target arg w =
  Some (constrain pf (preferences w)
          (default audio_empty (heap_with_default arg w !! target arg w))).
Proof.
  intros Hv. rewrite fetch_heap, list_lookup_alter_eq.
  destruct (lookup_lt_is_Some_2 _ _ (target_valid arg w Hv)) as [c ->].
  reflexivity.
Qed.

(** A track with a hook over [l], ended by the platform while the object at
    [l] holds [c] and the capture is granted again. *)
Lemma hook_fires w t l c lbl :
  tracks w !! track_id t = Some (hooked l) ->
  heap w !! l = Some c ->
  let w' := snd (track_ended t (Granted lbl) w) in
  let t' := next_track w lbl in
  trace w' = recovery_trace t t' l c ++ trace w /\
  audioTrack w' = Some t' /\
  heap w' = heap w /\
  tracks w' !! track_id t = Some dead /\
  tracks w' !! track_id t' = Some (hooked l) /\
  length (tracks w') = S (length (tracks w)).
Proof.
  intros Ht Hc. simpl.
  rewrite (track_ended_hooked t _ w (hooked l) l Ht eq_refl eq_refl).
  unfold recovered, recovery_events, recovery_trace; simpl.
  rewrite Hc. simpl.
  pose proof (lookup_lt_Some _ _ _ Ht) as Hlt.
  repeat split.
  - rewrite lookup_app_l by (unfold ended_tracks; rewrite length_insert; exact Hlt).
    unfold ended_tracks. apply list_lookup_insert_eq, Hlt.
  - apply list_lookup_middle. unfold ended_tracks. rewrite length_insert. reflexivity.
  - rewrite length_app. unfold ended_tracks. rewrite length_insert. simpl. lia.
Qed.

Lemma hook_requests_once w t l c r :
  tracks w !! track_id t = Some (hooked l) ->
  heap w !! l = Some c ->
  requests (trace (snd (track_ended t r w))) = (l, c) :: requests (trace w).
Proof.
  intros Ht Hc.
  rewrite (track_ended_hooked t _ w (hooked l) l Ht eq_refl eq_refl).
  unfold recovered, recovery_events; simpl. rewrite Hc.
  destruct r; reflexivity.
Qed.

(** After [stop()] the platform has nothing left to end on that track. *)
Lemma stop_silences w t st :
  tracks w !! track_id t = Some st ->
  trace (snd (track_stop t w)) = EvStop t :: trace w /\
  forall r, track_ended t r (snd (track_stop t w)) = (tt, snd (track_stop t w)).
Proof.
  intros Ht. split; [reflexivity|].
  intros r. apply track_ended_idle. intros st'.
  change (tracks (snd (track_stop t w)))
    with (alter (set_live false) (track_id t) (tracks w)).
  rewrite list_lookup_alter_eq, Ht. simpl. intros [= <-]. reflexivity.
Qed.

(** C4: a granted fetch arms the once-listener on the new track on the
    Oculus browser and on no other platform.  There, when the platform ends
    the track, the hook issues one request, with the object and the
    constraints of the original request; when that is granted, the new
    stream is added under "microphone", "local-media-stream-created" is
    emitted and the listener is armed on the replacement, whose end runs the
    recovery again, while the first track's listener is gone.  After an
    explicit [stop()] of the track the hook does not run. *)
Theorem C4_recovery_hook pf w arg lbl :
  valid_arg arg w ->
  let l := target arg w in
  let w1 := snd (fetchAudioTrack pf arg (Granted lbl) w) in
  let t1 := next_track w lbl in
  audioTrack w1 = Some t1 /\
  tracks w1 !! track_id t1 =
    Some (if isOculusBrowser pf then hooked l else unhooked) /\
  (isOculusBrowser pf = false ->
     forall r, snd (track_ended t1 r w1) = ended_unhooked t1 w1 /\
               requests (trace (snd (track_ended t1 r w1))) = requests (trace w1)) /\
  (isOculusBrowser pf = true ->
     exists c,
       requests (trace w1) = (l, c) :: requests (trace w) /\
       (forall r2, requests (trace (snd (track_ended t1 r2 w1))) =
                   (l, c) :: requests (trace w1)) /\
       (forall lbl2,
          let w2 := snd (track_ended t1 (Granted lbl2) w1) in
          let t2 := next_track w1 lbl2 in
          trace w2 = recovery_trace t1 t2 l c ++ trace w1 /\
          audioTrack w2 = Some t2 /\
          tracks w2 !! track_id t1 = Some dead /\
          tracks w2 !! track_id t2 = Some (hooked l) /\
          (forall r, track_ended t1 r w2 = (tt, w2)) /\
          (forall lbl3,
             let w3 := snd (track_ended t2 (Granted lbl3) w2) in
             let t3 := next_track w2 lbl3 in
             trace w3 = recovery_trace t2 t3 l c ++ trace w2 /\
             audioTrack w3 = Some t3 /\
             tracks w3 !! track_id t3 = Some (hooked l))) /\
       (let ws := snd (track_stop t1 w1) in
        trace ws = EvStop t1 :: trace w1 /\
        forall r, track_ended t1 r ws = (tt, ws))).
Proof.
  intros Hv l w1 t1.
  pose proof (fetch_new_track pf arg lbl w) as Ht1. fold w1 in Ht1.
  split; [unfold w1; apply fetch_audioTrack|].
  split; [exact Ht1|]. split.
  - intros E r. rewrite E in Ht1.
    rewrite (track_ended_unhooked t1 r w1 unhooked Ht1 eq_refl eq_refl).
    split; reflexivity.
  - intros E. rewrite E in Ht1.
    pose proof (fetch_heap_lookup pf arg (Granted lbl) w Hv) as Hc. fold w1 l in Hc.
    eexists. split; [unfold w1; apply fetch_request, Hv|].
    split; [intros r2; apply hook_requests_once; assumption|].
    split.
    + intros lbl2 w2 t2.
      destruct (hook_fires w1 t1 l _ lbl2 Ht1 Hc) as (Htr & Ha & Hh & Hd & Hk & _).
      fold w2 t2 in Htr, Ha, Hh, Hd, Hk.
      split; [exact Htr|]. split; [exact Ha|]. split; [exact Hd|].
      split; [exact Hk|]. split.
      * intros r. apply track_ended_idle. intros st Hst.
        change (track_id t1) with (length (tracks w)) in Hd, Hst.
        rewrite Hd in Hst. injection Hst as <-. reflexivity.
      * intros lbl3 w3 t3. rewrite <- Hh in Hc.
        destruct (hook_fires w2 t2 l _ lbl3 Hk Hc) as (Htr3 & Ha3 & _ & _ & Hk3 & _).
        auto.
    + cbv zeta. eapply stop_silences. exact Ht1.
Qed.

Lemma C4_recovery_hook_witness :
  valid_arg None fresh /\
  isOculusBrowser oculus_browser = true /\
  let w1 := snd (fetchAudioTrack oculus_browser None (Granted "Headset Mic") fresh) in
  let t1 := {| track_id := 0; track_label := "Headset Mic" |} in
  let t2 := {| track_id := 1; track_label := "Headset Mic" |} in
  let t3 := {| track_id := 2; track_label := "Headset Mic" |} in
  exists c,
    requests (trace w1) = [(0, c)] /\
    requests (trace (snd (track_ended t2 (Granted "Headset Mic")
                            (snd (track_ended t1 (Granted "Headset Mic") w1)))))
    = [(0, c); (0, c); (0, c)] /\
    audioTrack (snd (track_ended t2 (Granted "Headset Mic")
                       (snd (track_ended t1 (Granted "Headset Mic") w1)))) = Some t3.
Proof.
  assert (V : valid_arg None fresh) by (intros l H; discriminate).
  split; [exact V|]. split; [reflexivity|].
  pose proof (C4_recovery_hook oculus_browser fresh None "Headset Mic" V) as H.
  cbv zeta in H. destruct H as (_ & _ & _ & H).
  destruct (H eq_refl) as (c & Hr & _ & H2 & _).
  destruct (H2 "Headset Mic") as (Htr2 & _ & _ & _ & _ & H3).
  destruct (H3 "Headset Mic") as (Htr3 & Ha3 & _).
  pose proof (f_equal requests Htr3) as Hq.
  rewrite requests_app, Htr2, requests_app, Hr in Hq.
  exists c. split; [exact Hr|]. split; [exact Hq | exact Ha3].
Defined.

(** ** C10: the constraints object is shared, not copied *)

(** C10: [fetchAudioTrack] writes [echoCancellation], [noiseSuppression]
    and [autoGainControl] into the object it was given, in place and before
    the capture request, which carries them; no other object changes.  On
    the Oculus browser the recovery closure holds the same reference: each
    re-request reads the object as it is then, also after the caller changed
    it, and the listener is armed again over the same reference. *)
Theorem C10_constraints_shared pf w l c r :
  heap w !! l = Some c ->
  let w1 := snd (fetchAudioTrack pf (Some l) r w) in
  let c1 := constrain pf (preferences w) c in
  (exists ec ns agc,
     c1 = {| c_deviceId := c_deviceId c; echoCancellation := Some ec;
             noiseSuppression := Some ns; autoGainControl := Some agc |}) /\
  heap w1 !! l = Some c1 /\
  length (heap w1) = length (heap w) /\
  (forall l', l' <> l -> heap w1 !! l' = heap w !! l') /\
  requests (trace w1) = (l, c1) :: requests (trace w) /\
  (isOculusBrowser pf = true ->
   forall lbl, r = Granted lbl ->
     let t1 := next_track w lbl in
     tracks w1 !! track_id t1 = Some (hooked l) /\
     forall f lbl2,
       let w1' := snd (assign l f w1) in
       let t2 := next_track w1' lbl2 in
       let w2 := snd (track_ended t1 (Granted lbl2) w1') in
       heap w1' !! l = Some (f c1) /\
       requests (trace w2) = (l, f c1) :: requests (trace w1) /\
       tracks w2 !! track_id t2 = Some (hooked l) /\
       forall lbl3,
         requests (trace (snd (track_ended t2 (Granted lbl3) w2))) =
         (l, f c1) :: (l, f c1) :: requests (trace w1)).
Proof.
  intros Hc w1 c1.
  assert (Hv : valid_arg (Some l) w).
  { intros ? [= <-]. eapply lookup_lt_Some, Hc. }
  assert (Hh : heap w1 = alter (constrain pf (preferences w)) l (heap w)).
  { unfold w1. rewrite fetch_heap. reflexivity. }
  assert (Hc1 : heap w1 !! l = Some c1).
  { rewrite Hh, list_lookup_alter_eq, Hc. reflexivity. }
  split; [unfold c1, constrain; eauto|].
  split; [exact Hc1|].
  split; [rewrite Hh; apply length_alter|].
  split; [intros l' Hne; rewrite Hh; apply list_lookup_alter_ne; congruence|].
  split.
  { unfold w1. rewrite fetch_request by exact Hv.
    unfold heap_with_default, target. rewrite Hc. reflexivity. }
  intros E lbl -> t1.
  pose proof (fetch_new_track pf (Some l) lbl w) as Ht1.
  rewrite E in Ht1. fold w1 in Ht1. simpl target in Ht1.
  split; [exact Ht1|].
  intros f lbl2 w1' t2 w2.
  assert (Hc1' : heap w1' !! l = Some (f c1)).
  { unfold w1'. simpl. rewrite list_lookup_alter_eq, Hc1. reflexivity. }
  split; [exact Hc1'|].
  assert (Ht1' : tracks w1' !! track_id t1 = Some (hooked l)) by exact Ht1.
  destruct (hook_fires w1' t1 l _ lbl2 Ht1' Hc1') as (Htr & _ & Hh2 & _ & Hk & _).
  fold w2 t2 in Htr, Hh2, Hk.
  assert (Hq : requests (trace w2) = (l, f c1) :: requests (trace w1)).
  { apply (hook_requests_once w1' t1 l (f c1) (Granted lbl2) Ht1' Hc1'). }
  split; [exact Hq|]. split; [exact Hk|].
  intros lbl3. rewrite <- Hh2 in Hc1'.
  rewrite (hook_requests_once w2 t2 l (f c1) (Granted lbl3) Hk Hc1'), Hq.
  reflexivity.
Qed.

Lemma C10_constraints_shared_witness :
  heap caller_object !! 0 = Some (exact_device "mic-42") /\
  isOculusBrowser oculus_browser = true /\
  let w1 := snd (fetchAudioTrack oculus_browser (Some 0) (Granted "Headset Mic")
                   caller_object) in
  heap w1 !! 0 =
    Some {| c_deviceId := Exact ["mic-42"]; echoCancellation := Some true;
            noiseSuppression := Some true; autoGainControl := Some true |} /\
  requests (trace (snd (track_ended {| track_id := 0; track_label := "Headset Mic" |}
                          (Granted "Headset Mic")
                          (snd (assign 0 (set_echoCancellation false) w1))))) =
  [ (0, {| c_deviceId := Exact ["mic-42"]; echoCancellation := Some false;
           noiseSuppression := Some true; autoGainControl := Some true |});
    (0, {| c_deviceId := Exact ["mic-42"]; echoCancellation := Some true;
           noiseSuppression := Some true; autoGainControl := Some true |}) ].
Proof.
  split; [reflexivity|]. split; [reflexivity|].
  pose proof (C10_constraints_shared oculus_browser caller_object 0
                (exact_device "mic-42") (Granted "Headset Mic") eq_refl) as H.
  cbv zeta in H. destruct H as (_ & Hc1 & _ & _ & Hr & H).
  destruct (H eq_refl "Headset Mic" eq_refl) as (_ & H2).
  destruct (H2 (set_echoCancellation false) "Headset Mic") as (_ & Hq & _).
  cbv zeta. split; [exact Hc1|].
  rewrite Hr in Hq. exact Hq.
Defined.

(** ** C2: the headset-microphone advisory *)

Lemma append_empty (s : string) : "" +:+ s = s.
Proof. reflexivity. Qed.

Lemma append_String (c : ascii) (s t : string) :
  String c s +:+ t = String c (s +:+ t).
Proof. reflexivity. Qed.

Lemma search_spec ic pat s :
  Regex.search ic pat s = true <->
  exists pre suf, s = pre +:+ suf /\ Regex.match_here ic pat suf = true.
Proof.
  induction s as [|c s IH]; simpl.
  - rewrite orb_false_r. split.
    + intros H. exists "", "". auto.
    + intros (pre & suf & E & H).
      destruct pre; [|discriminate]. rewrite append_empty in E. subst suf. exact H.
  - rewrite orb_true_iff, IH. split.
    + intros [H | (pre & suf & -> & H)].
      * exists "", (String c s). auto.
      * exists (String c pre), suf. auto.
    + intros (pre & suf & E & H). destruct pre as [|c' pre].
      * rewrite append_empty in E. subst suf. auto.
      * rewrite append_String in E. injection E as -> ->. right. eauto.
Qed.

Lemma match_lit ic word rest s :
  Regex.match_here ic (Regex.lit word ++ rest) s = true <->
  exists mid tail,
    s = mid +:+ tail /\
    Forall2 (fun p c => Regex.atom_matches ic (Regex.Chr p) c = true)
      (list_ascii_of_string word) (list_ascii_of_string mid) /\
    Regex.match_here ic rest tail = true.
Proof.
  revert s. induction word as [|p word IH]; intros s.
  - simpl. split.
    + intros H. exists "", s. repeat split; [constructor | exact H].
    + intros (mid & tail & -> & HF & H). inversion HF as [E|].
      destruct mid; [exact H | discriminate].
  - change (Regex.lit (String p word) ++ rest)
      with (Regex.Chr p :: (Regex.lit word ++ rest)).
    cbn [Regex.match_here]. destruct s as [|c s].
    + split; [discriminate|]. intros (mid & tail & E & HF & _).
      destruct mid; [inversion HF | discriminate].
    + rewrite andb_true_iff, IH. split.
      * intros (Hc & mid & tail & -> & HF & H).
        exists (String c mid), tail. repeat split; [|exact H].
        constructor; assumption.
      * intros (mid & tail & E & HF & H).
        destruct mid as [|c' mid]; [inversion HF|].
        rewrite append_String in E. injection E as -> ->. inversion HF; subst.
        split; [assumption|]. eauto.
Qed.

Lemma canonical_word (word mid : string) :
  Forall2 (fun p c => Regex.atom_matches true (Regex.Chr p) c = true)
    (list_ascii_of_string word) (list_ascii_of_string mid) <->
  map Regex.canonicalize (list_ascii_of_string mid) =
  map Regex.canonicalize (list_ascii_of_string word).
Proof.
  revert mid. induction word as [|p word IH]; intros [|c mid]; simpl.
  - split; [reflexivity | constructor].
  - split; [intros H; inversion H | discriminate].
  - split; [intros H; inversion H | discriminate].
  - split.
    + intros H. inversion H; subst. f_equal.
      * symmetry. apply Ascii.eqb_eq. assumption.
      * apply IH. assumption.
    + intros [= Hc Hm]. constructor.
      * apply Ascii.eqb_eq. symmetry. exact Hc.
      * apply IH. exact Hm.
Qed.

(** What [/\Wword\W/i] matches. *)
Lemma test_delimited word lbl :
  Regex.test
    (Regex.mk (Regex.NonWord :: Regex.lit word ++ [Regex.NonWord]) true) lbl = true
  <-> delimited word lbl.
Proof.
  unfold Regex.test, delimited. simpl. rewrite search_spec. split.
  - intros (pre & suf & -> & H). destruct suf as [|a suf]; [discriminate|].
    cbn [Regex.match_here] in H. apply andb_true_iff in H as [Ha H].
    apply match_lit in H as (mid & tail & -> & HF & H).
    destruct tail as [|b post]; [discriminate|].
    cbn [Regex.match_here] in H. apply andb_true_iff in H as [Hb _].
    exists pre, a, mid, b, post. repeat split.
    + simpl in Ha. destruct (Regex.is_word a); [discriminate | reflexivity].
    + simpl in Hb. destruct (Regex.is_word b); [discriminate | reflexivity].
    + apply canonical_word, HF.
  - intros (pre & a & mid & b & post & -> & Ha & Hb & Hm).
    exists pre, (String a (mid +:+ String b post)). split; [reflexivity|].
    cbn [Regex.match_here]. apply andb_true_iff. split; [simpl; rewrite Ha; reflexivity|].
    apply match_lit. exists mid, (String b post). repeat split.
    + apply canonical_word, Hm.
    + simpl. rewrite Hb. reflexivity.
Qed.

Lemma matches_hmd_spec lbl : matches_hmd lbl = true <-> hmd_label lbl.
Proof.
  unfold matches_hmd, hmd_label, HMD_MIC_REGEXES.
  cbn [existsb]. rewrite orb_false_r, orb_true_iff.
  rewrite <- !test_delimited. reflexivity.
Qed.

(** C2, as stated, fails on its own example: with the labels "Vive Pro Mic"
    and "Generic Mic", immersive mode on, a desktop platform and
    "Generic Mic" selected, the advisory returns [false], not [true]:
    "Vive" opens its label, so no character stands before it for [\W], and
    no label of the list matches a pattern. *)
Lemma C2_counterexample :
  isMobile desktop = false /\ isMobileVR desktop = false /\
  hasHmdMicrophone
    {| enterInVR := true;
       state_micDevices := labelled ["Vive Pro Mic"; "Generic Mic"] |} = false /\
  shouldShowHmdMicWarning desktop
    (advisory_world ["Vive Pro Mic"; "Generic Mic"] "Generic Mic") = Returns false /\
  shouldShowHmdMicWarning desktop
    (advisory_world ["Vive Pro Mic"; "Generic Mic"] "Generic Mic") <> Returns true.
Proof.
  split; [reflexivity|]. split; [reflexivity|]. split; [reflexivity|].
  split; [reflexivity|]. discriminate.
Qed.

(** C2, amended: over the [state] the method reads, the advisory returns
    [false] on a mobile or mobile-VR platform, when [enterInVR] is off, and
    when no label of [state.micDevices] contains "vive" or "rift", in any
    letter case, between two non-word characters; otherwise it returns
    [true] exactly when the selected label contains no such occurrence.
    With the labels "Microphone (HTC Vive)" and "Generic Mic" it returns
    [true] when "Generic Mic" is selected and [false] when
    "Microphone (HTC Vive)" is. *)
Theorem C2_hmd_mic_warning pf w st :
  state w = Some st ->
  (exists b,
     shouldShowHmdMicWarning pf w = Returns b /\
     (b = true <->
      isMobile pf = false /\ isMobileVR pf = false /\
      enterInVR st = true /\
      (exists d, d ∈ state_micDevices st /\ hmd_label (label d)) /\
      ~ hmd_label (selectedMicLabel w))) /\
  (isMobile pf = true \/ isMobileVR pf = true ->
   shouldShowHmdMicWarning pf w = Returns false) /\
  (enterInVR st = false -> shouldShowHmdMicWarning pf w = Returns false) /\
  ((forall d, d ∈ state_micDevices st -> ~ hmd_label (label d)) ->
   shouldShowHmdMicWarning pf w = Returns false) /\
  shouldShowHmdMicWarning desktop
    (advisory_world ["Microphone (HTC Vive)"; "Generic Mic"] "Generic Mic")
  = Returns true /\
  shouldShowHmdMicWarning desktop
    (advisory_world ["Microphone (HTC Vive)"; "Generic Mic"] "Microphone (HTC Vive)")
  = Returns false.
Proof.
  intros Hst.
  assert (Hhas : hasHmdMicrophone st = true <->
                 exists d, d ∈ state_micDevices st /\ hmd_label (label d)).
  { unfold hasHmdMicrophone. rewrite existsb_exists. split.
    - intros (d & Hd & H). exists d. split; [apply list_elem_of_In, Hd|].
      apply matches_hmd_spec, H.
    - intros (d & Hd & H). exists d. split; [apply list_elem_of_In, Hd|].
      apply matches_hmd_spec, H. }
  assert (Hsel : existsb (fun r => Regex.test r (selectedMicLabel w)) HMD_MIC_REGEXES
                 = true <-> hmd_label (selectedMicLabel w)).
  { apply matches_hmd_spec. }
  unfold shouldShowHmdMicWarning. rewrite Hst.
  split; [|split; [|split; [|split; [|split]]]].
  - destruct (isMobile pf), (isMobileVR pf); cbn [orb negb];
      try (exists false; split; [reflexivity|];
           split; [discriminate | intros (? & ? & _); discriminate]).
    destruct (enterInVR st); cbn [orb negb];
      [|exists false; split; [reflexivity|];
        split; [discriminate | intros (_ & _ & ? & _); discriminate]].
    destruct (hasHmdMicrophone st) eqn:Eh; cbn [orb negb].
    + eexists. split; [reflexivity|]. rewrite negb_true_iff. split.
      * intros Hn. split; [reflexivity|]. split; [reflexivity|].
        split; [reflexivity|]. split; [apply Hhas; reflexivity|].
        intros Hl. apply Hsel in Hl. congruence.
      * intros (_ & _ & _ & _ & Hn).
        destruct (existsb _ _) eqn:Ee; [|reflexivity].
        exfalso. apply Hn, Hsel. reflexivity.
    + exists false. split; [reflexivity|]. split; [discriminate|].
      intros (_ & _ & _ & Hd & _). apply Hhas in Hd. discriminate.
  - intros [-> | ->]; [reflexivity|]. rewrite orb_true_r. reflexivity.
  - intros ->. cbn [negb]. destruct (isMobile pf || isMobileVR pf); reflexivity.
  - intros Hno. destruct (isMobile pf || isMobileVR pf); [reflexivity|].
    destruct (enterInVR st); [|reflexivity]. cbn [negb].
    destruct (hasHmdMicrophone st) eqn:Eh; [|reflexivity].
    exfalso. destruct (proj1 Hhas eq_refl) as (d & Hd & Hl).
    exact (Hno d Hd Hl).
  - reflexivity.
  - reflexivity.
Qed.

Lemma C2_hmd_mic_warning_witness :
  state (advisory_world ["Microphone (HTC Vive)"; "Generic Mic"] "Generic Mic")
  = Some {| enterInVR := true;
            state_micDevices := labelled ["Microphone (HTC Vive)"; "Generic Mic"] |} /\
  exists b,
    shouldShowHmdMicWarning desktop
      (advisory_world ["Microphone (HTC Vive)"; "Generic Mic"] "Generic Mic")
    = Returns b /\
    (b = true <->
     isMobile desktop = false /\ isMobileVR desktop = false /\
     true = true /\
     (exists d, d ∈ labelled ["Microphone (HTC Vive)"; "Generic Mic"] /\
                hmd_label (label d)) /\
     ~ hmd_label "Generic Mic").
Proof.
  split; [reflexivity|].
  exact (proj1 (C2_hmd_mic_warning desktop
                  (advisory_world ["Microphone (HTC Vive)"; "Generic Mic"] "Generic Mic")
                  _ eq_refl)).
Defined.

(** * Further properties of the class *)

(** ** The device directory: [fetchMicDevices] and [onDeviceChange] *)

Lemma substring_prefix n s :
  exists rest,
    s = substring 0 n s +:+ rest /\
    String.length (substring 0 n s) = Nat.min n (String.length s).
Proof.
  revert s. induction n as [|n IH]; intros s.
  - exists s. destruct s; split; reflexivity.
  - destruct s as [|c s].
    + exists "". split; reflexivity.
    + destruct (IH s) as (rest & E & L). exists rest. split.
      * change (String c s = String c (substring 0 n s +:+ rest)).
        rewrite <- E. reflexivity.
      * change (S (String.length (substring 0 n s)) =
                S (Nat.min n (String.length s))).
        rewrite L. reflexivity.
Qed.

Lemma directory_elem devs m :
  m ∈ directory devs <->
  exists d, d ∈ devs /\ d_kind d = audioinput /\ m = micDevice_of d.
Proof.
  unfold directory. rewrite list_elem_of_In, in_map_iff. split.
  - intros (d & <- & Hd). apply filter_In in Hd as [Hd Hk].
    exists d. split; [apply list_elem_of_In, Hd|]. split; [|reflexivity].
    unfold is_audioinput in Hk. destruct (d_kind d); [reflexivity | discriminate..].
  - intros (d & Hd & Hk & ->). exists d. split; [reflexivity|].
    apply filter_In. split; [apply list_elem_of_In, Hd|].
    unfold is_audioinput. rewrite Hk. reflexivity.
Qed.

(** X1: a refresh replaces the directory, whatever it held, by the audio
    inputs of the enumeration, in their order and under their ids, with the
    platform's label where it gives one; devices of any other kind are left
    out; the capture, the store and the tracks are not touched. *)
Theorem X1_fetchMicDevices_directory devs w :
  let w' := snd (fetchMicDevices devs w) in
  map value (micDevices w') = map d_deviceId (List.filter is_audioinput devs) /\
  (forall m, m ∈ micDevices w' <->
             exists d, d ∈ devs /\ d_kind d = audioinput /\
                       value m = d_deviceId d /\
                       label m = if String.eqb (d_label d) ""
                                 then "Mic (" +:+ substring 0 9 (d_deviceId d) +:+ ")"
                                 else d_label d) /\
  (forall d, d ∈ devs -> d_kind d = audioinput -> d_label d <> "" ->
             {| value := d_deviceId d; label := d_label d |} ∈ micDevices w') /\
  length (micDevices w') <= length devs /\
  (forall w2, micDevices (snd (fetchMicDevices devs w2)) = micDevices w') /\
  audioTrack w' = audioTrack w /\ mediaStream w' = mediaStream w /\
  tracks w' = tracks w /\ preferences w' = preferences w /\
  lastUsedMicDeviceId w' = lastUsedMicDeviceId w /\
  trace w' = EvEnumerateDevices :: trace w.
Proof.
  intros w'. change (micDevices w') with (directory devs).
  split; [|split; [|split; [|split; [|repeat split]]]].
  - unfold directory. rewrite map_map. reflexivity.
  - intros m. rewrite directory_elem. split.
    + intros (d & Hd & Hk & ->). exists d. auto.
    + intros (d & Hd & Hk & Hv & Hl). exists d. split; [exact Hd|].
      split; [exact Hk|]. destruct m as [v l]. simpl in Hv, Hl. subst v l.
      reflexivity.
  - intros d Hd Hk Hl. apply directory_elem. exists d.
    split; [exact Hd|]. split; [exact Hk|]. unfold micDevice_of.
    apply String.eqb_neq in Hl. rewrite Hl. reflexivity.
  - unfold directory. rewrite length_map. apply filter_length_le.
Qed.

Lemma X1_fetchMicDevices_directory_witness :
  {| d_deviceId := "mic-42"; d_kind := audioinput; d_label := "Generic Mic" |}
    ∈ one_microphone /\
  "Generic Mic" <> "" /\
  {| value := "mic-42"; label := "Generic Mic" |}
    ∈ micDevices (snd (fetchMicDevices one_microphone fresh)) /\
  map value (micDevices (snd (fetchMicDevices one_microphone fresh))) = ["mic-42"].
Proof.
  pose proof (X1_fetchMicDevices_directory one_microphone fresh) as H.
  cbv zeta in H. destruct H as (Hv & _ & Hm & _).
  assert (Hin : {| d_deviceId := "mic-42"; d_kind := audioinput;
                   d_label := "Generic Mic" |} ∈ one_microphone)
    by apply list_elem_of_here.
  split; [exact Hin|]. split; [discriminate|]. split; [|exact Hv].
  apply (Hm _ Hin eq_refl). discriminate.
Defined.

(** X2: no entry of a refreshed directory has an empty label: where the
    platform withholds the label of an audio input, the entry is labelled
    "Mic (p)", with p the first nine characters of the device id, or the
    whole id when it is shorter. *)
Theorem X2_withheld_labels devs w d :
  d ∈ devs -> d_kind d = audioinput -> d_label d = "" ->
  let dir := micDevices (snd (fetchMicDevices devs w)) in
  (forall m, m ∈ dir -> label m <> "") /\
  exists p rest,
    d_deviceId d = p +:+ rest /\
    String.length p = Nat.min 9 (String.length (d_deviceId d)) /\
    {| value := d_deviceId d; label := "Mic (" +:+ p +:+ ")" |} ∈ dir.
Proof.
  intros Hd Hk Hl dir. change dir with (directory devs). split.
  - intros m Hm. pose proof (directory_labels devs) as H.
    rewrite Forall_forall in H. apply H, Hm.
  - destruct (substring_prefix 9 (d_deviceId d)) as (rest & E & L).
    exists (substring 0 9 (d_deviceId d)), rest.
    split; [exact E|]. split; [exact L|].
    apply directory_elem. exists d. split; [exact Hd|]. split; [exact Hk|].
    unfold micDevice_of. rewrite Hl. reflexivity.
Qed.

Lemma X2_withheld_labels_witness :
  {| d_deviceId := "0123456789abcdef"; d_kind := audioinput; d_label := "" |}
    ∈ withheld_label /\
  exists p rest,
    "0123456789abcdef" = p +:+ rest /\
    String.length p = 9 /\
    {| value := "0123456789abcdef"; label := "Mic (" +:+ p +:+ ")" |}
      ∈ micDevices (snd (fetchMicDevices withheld_label fresh)).
Proof.
  assert (Hin : {| d_deviceId := "0123456789abcdef"; d_kind := audioinput;
                   d_label := "" |} ∈ withheld_label)
    by apply list_elem_of_here.
  split; [exact Hin|].
  exact (proj2 (X2_withheld_labels withheld_label fresh _ Hin eq_refl eq_refl)).
Defined.

(** X3: a device change of the platform refreshes the directory and then
    emits "devicechange"; it neither stops nor requests a capture, writes
    nothing to the store, and leaves the active track and the outbound
    stream in place.  The selected label stays, while the selected device id
    is looked up again, in the new directory: it becomes undefined, with the
    track still selected, when no enumerated audio input carries that
    label. *)
Theorem X3_device_change_keeps_capture devs w :
  let w' := snd (onDeviceChange devs w) in
  trace w' = [EvEmit "devicechange"; EvEnumerateDevices] ++ trace w /\
  micDevices w' = directory devs /\
  audioTrack w' = audioTrack w /\ mediaStream w' = mediaStream w /\
  tracks w' = tracks w /\ heap w' = heap w /\
  preferences w' = preferences w /\
  lastUsedMicDeviceId w' = lastUsedMicDeviceId w /\
  (forall i, is_live w' i <-> is_live w i) /\
  isAudioDeviceSelected w' = isAudioDeviceSelected w /\
  selectedMicLabel w' = selectedMicLabel w /\
  selectedMicDeviceId w' =
    head (map value (List.filter
            (fun d => String.eqb (label d) (selectedMicLabel w)) (directory devs))) /\
  ((forall d, d ∈ devs -> d_kind d = audioinput ->
              label (micDevice_of d) <> selectedMicLabel w) ->
   selectedMicDeviceId w' = None).
Proof.
  intros w'.
  split; [reflexivity|]. split; [reflexivity|]. split; [reflexivity|].
  split; [reflexivity|]. split; [reflexivity|]. split; [reflexivity|].
  split; [reflexivity|]. split; [reflexivity|].
  split; [intros i; reflexivity|]. split; [reflexivity|].
  split; [reflexivity|]. split; [reflexivity|].
  intros Hno.
  change (selectedMicDeviceId w') with
    (head (map value (List.filter
             (fun d => String.eqb (label d) (selectedMicLabel w)) (directory devs)))).
  apply first_match_None, Forall_forall. intros m Hm.
  apply directory_elem in Hm as (d & Hd & Hk & ->).
  apply String.eqb_neq, Hno; assumption.
Qed.

Lemma X3_device_change_keeps_capture_witness :
  isAudioDeviceSelected (snd (onDeviceChange withheld_label after_grant)) = true /\
  selectedMicLabel (snd (onDeviceChange withheld_label after_grant)) = "Generic Mic" /\
  selectedMicDeviceId (snd (onDeviceChange withheld_label after_grant)) = None.
Proof.
  pose proof (X3_device_change_keeps_capture withheld_label after_grant) as H.
  cbv zeta in H.
  destruct H as (_ & _ & _ & _ & _ & _ & _ & _ & _ & Hs & Hl & _ & Hn).
  split; [rewrite Hs; reflexivity|]. split; [rewrite Hl; reflexivity|].
  apply Hn. intros d Hd Hk.
  apply elem_of_cons in Hd as [-> | Hd]; [discriminate|].
  apply list_elem_of_singleton in Hd. subst d. discriminate.
Defined.

(** ** The constraints of a request *)

Lemma preference_writes_app es tr :
  preference_writes (es ++ tr) = preference_writes es ++ preference_writes tr.
Proof.
  induction es as [|e es IH]; simpl; [reflexivity|].
  destruct e; simpl; rewrite IH; reflexivity.
Qed.

Lemma fetch_events_preference_writes pf arg r w :
  preference_writes (fetch_events pf arg r w) =
  if isFirefoxReality pf then [written_back pf (preferences w)] else [].
Proof.
  unfold fetch_events. rewrite !preference_writes_app.
  destruct r, (isOculusBrowser pf), (isFirefoxReality pf), (audioTrack w);
    reflexivity.
Qed.

(** X4: outside Firefox Reality every toggle of the request is enabled
    unless its disable flag is [true] itself: an absent flag enables it and
    a boolean flag gives its negation; the stored preferences are read, not
    written. *)
Theorem X4_base_rule pf w arg r :
  isFirefoxReality pf = false ->
  valid_arg arg w ->
  let p := preferences w in
  let w' := snd (fetchAudioTrack pf arg r w) in
  exists c,
    requests (trace w') = (target arg w, c) :: requests (trace w) /\
    echoCancellation c = Some (negb (strictly_true (disableEchoCancellation p))) /\
    noiseSuppression c = Some (negb (strictly_true (disableNoiseSuppression p))) /\
    autoGainControl c = Some (negb (strictly_true (disableAutoGainControl p))) /\
    (disableEchoCancellation p = None -> echoCancellation c = Some true) /\
    (disableNoiseSuppression p = None -> noiseSuppression c = Some true) /\
    (disableAutoGainControl p = None -> autoGainControl c = Some true) /\
    (forall b, disableEchoCancellation p = Some b -> echoCancellation c = Some (negb b)) /\
    (forall b, disableNoiseSuppression p = Some b -> noiseSuppression c = Some (negb b)) /\
    (forall b, disableAutoGainControl p = Some b -> autoGainControl c = Some (negb b)) /\
    preferences w' = p /\
    preference_writes (trace w') = preference_writes (trace w).
Proof.
  intros E Hv p w'. subst p. eexists. split; [apply fetch_request, Hv|].
  unfold constrain, toggle. rewrite E. cbn [echoCancellation noiseSuppression autoGainControl].
  split; [reflexivity|]. split; [reflexivity|]. split; [reflexivity|].
  split; [intros ->; reflexivity|]. split; [intros ->; reflexivity|].
  split; [intros ->; reflexivity|].
  split; [intros b ->; destruct b; reflexivity|].
  split; [intros b ->; destruct b; reflexivity|].
  split; [intros b ->; destruct b; reflexivity|].
  split.
  - unfold w'. rewrite fetch_preferences by exact Hv. rewrite E. reflexivity.
  - unfold w'. rewrite fetch_trace by exact Hv.
    rewrite preference_writes_app, fetch_events_preference_writes, E. reflexivity.
Qed.

Lemma X4_base_rule_witness :
  isFirefoxReality desktop = false /\
  valid_arg None fresh /\
  exists c,
    requests (trace (snd (fetchAudioTrack desktop None (Granted "Generic Mic") fresh)))
    = [(0, c)] /\
    echoCancellation c = Some true /\
    preferences (snd (fetchAudioTrack desktop None (Granted "Generic Mic") fresh))
    = no_preferences.
Proof.
  assert (V : valid_arg None fresh) by (intros l H; discriminate).
  split; [reflexivity|]. split; [exact V|].
  pose proof (X4_base_rule desktop fresh None (Granted "Generic Mic") eq_refl V) as H.
  cbv zeta in H. destruct H as (c & Hr & _ & _ & _ & He & _ & _ & _ & _ & _ & Hp & _).
  exists c. split; [exact Hr|]. split; [apply He; reflexivity | exact Hp].
Defined.

(** X5: on Firefox Reality one fetch leaves three boolean flags in the
    store, and from then on every request follows the base rule over them:
    each toggle is the negation of its stored disable flag, and the store
    keeps its values. *)
Theorem X5_firefox_reality_settles pf w arg r :
  isFirefoxReality pf = true ->
  valid_arg arg w ->
  let w1 := snd (fetchAudioTrack pf arg r w) in
  exists b1 b2 b3,
    preferences w1 =
      {| disableEchoCancellation := Some b1; disableNoiseSuppression := Some b2;
         disableAutoGainControl := Some b3 |} /\
    forall arg' r',
      valid_arg arg' w1 ->
      let w2 := snd (fetchAudioTrack pf arg' r' w1) in
      exists c,
        requests (trace w2) = (target arg' w1, c) :: requests (trace w1) /\
        echoCancellation c = Some (negb b1) /\
        noiseSuppression c = Some (negb b2) /\
        autoGainControl c = Some (negb b3) /\
        preferences w2 = preferences w1.
Proof.
  intros E Hv w1.
  assert (Hp : preferences w1 = written_back pf (preferences w)).
  { unfold w1. rewrite fetch_preferences by exact Hv. rewrite E. reflexivity. }
  eexists _, _, _. split; [rewrite Hp; reflexivity|].
  intros arg' r' Hv'. cbv zeta. eexists. split; [apply fetch_request, Hv'|].
  rewrite Hp. unfold constrain, written_back.
  cbn [echoCancellation noiseSuppression autoGainControl
       disableEchoCancellation disableNoiseSuppression disableAutoGainControl].
  rewrite !toggle_written_back by exact E.
  split; [rewrite negb_involutive; reflexivity|].
  split; [rewrite negb_involutive; reflexivity|].
  split; [rewrite negb_involutive; reflexivity|].
  rewrite fetch_preferences by exact Hv'. rewrite E, Hp.
  unfold written_back.
  cbn [disableEchoCancellation disableNoiseSuppression disableAutoGainControl].
  rewrite !toggle_written_back by exact E. reflexivity.
Qed.

Lemma X5_firefox_reality_settles_witness :
  isFirefoxReality firefox_reality = true /\
  valid_arg None fresh /\
  exists b1 b2 b3,
    preferences (snd (fetchAudioTrack firefox_reality None (Granted "Headset Mic") fresh))
    = {| disableEchoCancellation := Some b1; disableNoiseSuppression := Some b2;
         disableAutoGainControl := Some b3 |}.
Proof.
  assert (V : valid_arg None fresh) by (intros l H; discriminate).
  split; [reflexivity|]. split; [exact V|].
  pose proof (X5_firefox_reality_settles firefox_reality fresh None
                (Granted "Headset Mic") eq_refl V) as H.
  cbv zeta in H. destruct H as (b1 & b2 & b3 & Hp & _).
  exists b1, b2, b3. exact Hp.
Defined.

(** X6: called without an argument, [fetchAudioTrack] works on a new object
    [{ audio: {} }]: the request has no device clause, and the objects that
    existed before the call are as they were. *)
Theorem X6_default_argument pf w r :
  let w' := snd (fetchAudioTrack pf None r w) in
  length (heap w') = S (length (heap w)) /\
  take (length (heap w)) (heap w') = heap w /\
  exists c,
    heap w' !! length (heap w) = Some c /\
    requests (trace w') = (length (heap w), c) :: requests (trace w) /\
    c_deviceId c = NoDeviceClause.
Proof.
  intros w'.
  assert (Hh : heap w' = heap w ++ [constrain pf (preferences w) audio_empty]).
  { unfold w'. rewrite fetch_heap. unfold heap_with_default, target.
    apply alter_snoc. reflexivity. }
  rewrite Hh. split; [rewrite length_app; simpl; lia|].
  split; [apply take_app_length|].
  eexists. split; [apply list_lookup_middle; reflexivity|].
  split; [|reflexivity].
  unfold w'. rewrite fetch_request by (intros l H; discriminate).
  unfold heap_with_default, target.
  rewrite list_lookup_middle by reflexivity. reflexivity.
Qed.


(** ** Looking devices up *)

Lemma unique_key_before {A : Type} (k : A -> string) (pre post : list A) (d : A) :
  NoDup (map k (pre ++ d :: post)) ->
  Forall (fun x => String.eqb (k x) (k d) = false) pre.
Proof.
  rewrite map_app. intros (_ & H & _)%NoDup_app.
  apply Forall_forall. intros x Hx. apply String.eqb_neq. intros E.
  apply (H (k x)).
  - apply list_elem_of_In, in_map, list_elem_of_In, Hx.
  - rewrite E. simpl. apply list_elem_of_here.
Qed.

(** X8: where the device ids of the directory are distinct, the label that
    [micLabelForDeviceId] gives for the id found by [micDeviceIdForMicLabel]
    is the label looked up; where the labels are distinct, the id found for
    the label of a device id is that id. *)
Theorem X8_lookup_round_trip w :
  (NoDup (map value (micDevices w)) ->
   forall lbl id, micDeviceIdForMicLabel w lbl = Some id ->
                  micLabelForDeviceId w id = Some lbl) /\
  (NoDup (map label (micDevices w)) ->
   forall id lbl, micLabelForDeviceId w id = Some lbl ->
                  micDeviceIdForMicLabel w lbl = Some id).
Proof.
  unfold micDeviceIdForMicLabel, micLabelForDeviceId. split.
  - intros Hnd lbl id H.
    apply first_match_Some in H as (pre & d & post & E & Fd & Hd & _).
    apply first_match_Some. exists pre, d, post.
    apply String.eqb_eq in Fd. subst id lbl.
    split; [exact E|]. split; [apply String.eqb_refl|]. split; [reflexivity|].
    rewrite E in Hnd. apply (unique_key_before value pre post d Hnd).
  - intros Hnd id lbl H.
    apply first_match_Some in H as (pre & d & post & E & Fd & Hd & _).
    apply first_match_Some. exists pre, d, post.
    apply String.eqb_eq in Fd. subst id lbl.
    split; [exact E|]. split; [apply String.eqb_refl|]. split; [reflexivity|].
    rewrite E in Hnd. apply (unique_key_before label pre post d Hnd).
Qed.

Lemma X8_lookup_round_trip_witness :
  NoDup (map value (micDevices with_directory)) /\
  micDeviceIdForMicLabel with_directory "Generic Mic" = Some "mic-42" /\
  micLabelForDeviceId with_directory "mic-42" = Some "Generic Mic".
Proof.
  assert (Hnd : NoDup (map value (micDevices with_directory))).
  { apply NoDup_singleton. }
  split; [exact Hnd|]. split; [reflexivity|].
  apply (proj1 (X8_lookup_round_trip with_directory) Hnd). reflexivity.
Defined.

(** ** When the platform ends the active track *)






(** X11: a granted recovery replaces the active track and notifies, and
    does none of the housekeeping of a selection: the device directory is
    not refreshed, [lastUsedMicDeviceId] is not written, and the selected
    device id is the lookup of the new track's label in the directory as it
    was. *)
Theorem X11_recovery_skips_housekeeping w t l lbl :
  tracks w !! track_id t = Some (hooked l) ->
  let w' := snd (track_ended t (Granted lbl) w) in
  micDevices w' = micDevices w /\
  lastUsedMicDeviceId w' = lastUsedMicDeviceId w /\
  preferences w' = preferences w /\
  mediaStream w' = mediaStream w /\
  settings_writes (trace w') = settings_writes (trace w) /\
  emitted (trace w') = "local-media-stream-created" :: emitted (trace w) /\
  selectedMicLabel w' = lbl /\
  selectedMicDeviceId w' = micDeviceIdForMicLabel w lbl.
Proof.
  intros Hst w'.
  assert (Hw : w' = recovered t l (Granted lbl) w).
  { unfold w'. apply (track_ended_hooked t _ w (hooked l) l Hst eq_refl eq_refl). }
  rewrite Hw. repeat split.
Qed.

Lemma X11_recovery_skips_housekeeping_witness :
  tracks hooked_world !! 0 = Some (hooked 0) /\
  lastUsedMicDeviceId
    (snd (track_ended {| track_id := 0; track_label := "Headset Mic" |}
            (Granted "Other Mic") hooked_world)) = None /\
  selectedMicLabel
    (snd (track_ended {| track_id := 0; track_label := "Headset Mic" |}
            (Granted "Other Mic") hooked_world)) = "Other Mic".
Proof.
  split; [reflexivity|].
  pose proof (X11_recovery_skips_housekeeping hooked_world
                {| track_id := 0; track_label := "Headset Mic" |} 0 "Other Mic"
                eq_refl) as H.
  cbv zeta in H. destruct H as (_ & Hl & _ & _ & _ & _ & Hs & _).
  split; [exact Hl | exact Hs].
Defined.

(** ** The advisory and the [state] it reads *)

Lemma track_ended_state t r w : state (snd (track_ended t r w)) = state w.
Proof.
  destruct (tracks w !! track_id t) as [st|] eqn:E.
  - destruct (live st) eqn:L.
    + destruct (ended_once st) as [l|] eqn:K.
      * rewrite (track_ended_hooked t r w st l E L K). reflexivity.
      * rewrite (track_ended_unhooked t r w st E L K). reflexivity.
    + rewrite track_ended_idle; [reflexivity | congruence].
  - rewrite track_ended_idle; [reflexivity | congruence].
Qed.

(** X12: the advisory answers [false] on a mobile or mobile-VR platform,
    Firefox Reality among them, without reading [state]; on any other
    platform it throws a TypeError while the manager has no [state]; and no
    method of the class gives it one: each leaves [state] as it found it. *)
Theorem X12_advisory_needs_state pf w :
  (isMobile pf = true \/ isMobileVR pf = true ->
   shouldShowHmdMicWarning pf w = Returns false) /\
  (isFirefoxReality pf = true -> shouldShowHmdMicWarning pf w = Returns false) /\
  (isMobile pf = false -> isMobileVR pf = false -> state w = None ->
   shouldShowHmdMicWarning pf w = ThrowsTypeError) /\
  (forall arg r, state (snd (fetchAudioTrack pf arg r w)) = state w) /\
  (forall id r devs, state (snd (selectMicDevice pf id r devs w)) = state w) /\
  (forall r devs, state (snd (setMediaStreamToDefault pf r devs w)) = state w) /\
  (forall devs, state (snd (setupNewMediaStream devs w)) = state w) /\
  (forall devs, state (snd (fetchMicDevices devs w)) = state w) /\
  (forall devs, state (snd (onDeviceChange devs w)) = state w) /\
  (forall t r, state (snd (track_ended t r w)) = state w).
Proof.
  assert (Hs : forall devs w0, state (snd (setupNewMediaStream devs w0)) = state w0).
  { intros devs w0. apply (setup_frame devs w0). }
  assert (Hf : forall arg r w0, state (snd (fetchAudioTrack pf arg r w0)) = state w0).
  { intros arg r w0. apply (fetch_frame pf arg r w0). }
  unfold shouldShowHmdMicWarning.
  split; [intros [-> | ->]; [reflexivity | rewrite orb_true_r; reflexivity]|].
  split.
  { unfold isFirefoxReality. intros [-> _]%andb_prop.
    rewrite orb_true_r. reflexivity. }
  split; [intros -> -> ->; reflexivity|].
  split; [intros arg r; apply Hf|].
  split; [intros id r devs; rewrite selectMicDevice_world, Hs, Hf; reflexivity|].
  split; [intros r devs; rewrite setMediaStreamToDefault_world, Hs, Hf; reflexivity|].
  split; [intros devs; apply Hs|].
  split; [reflexivity|]. split; [reflexivity|].
  intros t r. apply track_ended_state.
Qed.

Lemma X12_advisory_needs_state_witness :
  isMobile desktop = false /\ isMobileVR desktop = false /\
  state after_grant = None /\
  shouldShowHmdMicWarning desktop after_grant = ThrowsTypeError /\
  isFirefoxReality firefox_reality = true /\
  shouldShowHmdMicWarning firefox_reality after_grant = Returns false.
Proof.
  pose proof (X12_advisory_needs_state desktop after_grant) as (_ & _ & H & _).
  pose proof (X12_advisory_needs_state firefox_reality after_grant) as (_ & H' & _).
  split; [reflexivity|]. split; [reflexivity|]. split; [reflexivity|].
  split; [apply H; reflexivity|]. split; [reflexivity|]. apply H'. reflexivity.
Defined.

(** ** The housekeeping and the remembered device *)




Lemma settings_writes_app es tr :
  settings_writes (es ++ tr) = settings_writes es ++ settings_writes tr.
Proof.
  induction es as [|e es IH]; simpl; [reflexivity|].
  destruct e; simpl; rewrite IH; reflexivity.
Qed.

Lemma emitted_app es tr : emitted (es ++ tr) = emitted es ++ emitted tr.
Proof.
  induction es as [|e es IH]; simpl; [reflexivity|].
  destruct e; simpl; rewrite IH; reflexivity.
Qed.

(** X14: with an active track whose label the refreshed directory does not
    resolve, or resolves to an empty id, the housekeeping writes nothing to
    the store and still emits "local-media-stream-created". *)
Theorem X14_housekeeping_unresolved devs w t :
  audioTrack w = Some t ->
  truthy (micDeviceIdForMicLabel (with_micDevices (directory devs) w)
            (track_label t)) = false ->
  let w' := snd (setupNewMediaStream devs w) in
  trace w' = [EvEmit "local-media-stream-created"; EvEnumerateDevices] ++ trace w /\
  lastUsedMicDeviceId w' = lastUsedMicDeviceId w /\
  preferences w' = preferences w.
Proof.
  intros Ha Hf w'. unfold micDeviceIdForMicLabel in Hf. simpl in Hf.
  unfold w'. rewrite setup_trace, setup_lastUsed, Ha. cbv zeta. rewrite Hf.
  split; [reflexivity|]. split; [reflexivity|].
  apply (setup_frame devs w).
Qed.

Lemma X14_housekeeping_unresolved_witness :
  audioTrack after_grant = Some {| track_id := 0; track_label := "Generic Mic" |} /\
  truthy (micDeviceIdForMicLabel (with_micDevices (directory withheld_label) after_grant)
            "Generic Mic") = false /\
  emitted (trace (snd (setupNewMediaStream withheld_label after_grant))) =
    ["local-media-stream-created"] /\
  lastUsedMicDeviceId (snd (setupNewMediaStream withheld_label after_grant)) = None.
Proof.
  split; [reflexivity|]. split; [reflexivity|].
  pose proof (X14_housekeeping_unresolved withheld_label after_grant
                {| track_id := 0; track_label := "Generic Mic" |} eq_refl eq_refl) as H.
  cbv zeta in H. destruct H as (Ht & Hl & _).
  split; [rewrite Ht; reflexivity | exact Hl].
Defined.

(** X15: the housekeeping writes [lastUsedMicDeviceId] at most once, and
    only with the non-empty id of an enumerated audio input whose directory
    label is the label of the active track; otherwise the setting keeps its
    value. *)
Theorem X15_remembered_id_is_enumerated devs w :
  let w' := snd (setupNewMediaStream devs w) in
  (settings_writes (trace w') = settings_writes (trace w) /\
   lastUsedMicDeviceId w' = lastUsedMicDeviceId w) \/
  (exists t d,
     audioTrack w = Some t /\
     d ∈ devs /\ d_kind d = audioinput /\
     label (micDevice_of d) = track_label t /\
     d_deviceId d <> "" /\
     settings_writes (trace w') = d_deviceId d :: settings_writes (trace w) /\
     lastUsedMicDeviceId w' = Some (d_deviceId d)).
Proof.
  intros w'. unfold w'. rewrite setup_trace, setup_lastUsed.
  destruct (audioTrack w) as [t|] eqn:Ha; [|left; split; reflexivity].
  cbv zeta.
  destruct (head (map value (List.filter
              (fun d => String.eqb (label d) (track_label t)) (directory devs))))
    as [found|] eqn:Hf; [|left; split; reflexivity].
  simpl truthy. destruct (String.eqb found "") eqn:Hne; [left; split; reflexivity|].
  right. apply first_match_Some in Hf as (pre & m & post & E & Fm & Hv & _).
  assert (Hm : m ∈ directory devs).
  { rewrite E. apply elem_of_app. right. apply list_elem_of_here. }
  apply directory_elem in Hm as (d & Hd & Hk & ->).
  simpl in Hv. subst found.
  exists t, d. split; [reflexivity|]. split; [exact Hd|]. split; [exact Hk|].
  split; [apply String.eqb_eq, Fm|]. split; [apply String.eqb_neq, Hne|].
  split; reflexivity.
Qed.

(** ** Selecting twice *)

Lemma select_audioTrack pf id r devs w :
  audioTrack (snd (selectMicDevice pf id r devs w)) =
  match r with
  | Granted lbl => Some (next_track w lbl)
  | Rejected _ => None
  end.
Proof.
  rewrite selectMicDevice_world.
  pose proof (setup_frame devs
    (snd (fetchAudioTrack pf (Some (length (heap w))) r
            (snd (alloc (exact_device id) w))))) as (_ & -> & _).
  rewrite fetch_audioTrack. reflexivity.
Qed.

(** X16: of two calls of [selectMicDevice] in a row, the second stops the
    track that the first obtained, and only that one; when the first was
    rejected the second has nothing to stop; either way the second issues
    one capture request of its own. *)
Theorem X16_select_twice pf w id1 r1 devs1 id2 r2 devs2 :
  let w1 := snd (selectMicDevice pf id1 r1 devs1 w) in
  let w2 := snd (selectMicDevice pf id2 r2 devs2 w1) in
  stops (trace w2) =
    match r1 with
    | Granted lbl1 => [{| track_id := length (tracks w); track_label := lbl1 |}]
    | Rejected _ => []
    end ++ stops (trace w1) /\
  (exists c, requests (trace w2) = (length (heap w1), c) :: requests (trace w1) /\
             c_deviceId c = Exact [id2]) /\
  fst (selectMicDevice pf id2 r2 devs2 w1) = granted r2.
Proof.
  intros w1 w2. split; [|split].
  - unfold w2. rewrite selectMicDevice_stops. unfold w1.
    rewrite select_audioTrack. destruct r1; reflexivity.
  - unfold w2. rewrite selectMicDevice_world, setup_requests,
      fetch_new_object_request. eexists. split; reflexivity.
  - rewrite selectMicDevice_run. reflexivity.
Qed.

(** ** The headset-microphone patterns *)

Lemma canonicalize_idempotent c :
  Regex.canonicalize (Regex.canonicalize c) = Regex.canonicalize c.
Proof. destruct c as [[] [] [] [] [] [] [] []]; reflexivity. Qed.

Lemma is_word_canonicalize c :
  Regex.is_word (Regex.canonicalize c) = Regex.is_word c.
Proof. destruct c as [[] [] [] [] [] [] [] []]; reflexivity. Qed.

Lemma atom_matches_upcase a c :
  Regex.atom_matches true a (Regex.canonicalize c) = Regex.atom_matches true a c.
Proof.
  destruct a as [p|]; simpl.
  - rewrite canonicalize_idempotent. reflexivity.
  - rewrite is_word_canonicalize. reflexivity.
Qed.

Lemma match_here_upcase pat s :
  Regex.match_here true pat (upcase s) = Regex.match_here true pat s.
Proof.
  revert s. induction pat as [|a pat IH]; intros s; [reflexivity|].
  destruct s as [|c s]; [reflexivity|].
  cbn [upcase Regex.match_here]. rewrite atom_matches_upcase, IH. reflexivity.
Qed.

Lemma search_upcase pat s :
  Regex.search true pat (upcase s) = Regex.search true pat s.
Proof.
  induction s as [|c s IH].
  - reflexivity.
  - change (Regex.search true pat (upcase (String c s)))
      with (Regex.match_here true pat (upcase (String c s))
            || Regex.search true pat (upcase s)).
    rewrite match_here_upcase, IH. reflexivity.
Qed.

Lemma string_length_append (s t : string) :
  String.length (s +:+ t) = String.length s + String.length t.
Proof.
  induction s as [|c s IH]; [reflexivity|].
  rewrite append_String. simpl. rewrite IH. reflexivity.
Qed.

Lemma string_append_assoc (s t u : string) : (s +:+ t) +:+ u = s +:+ (t +:+ u).
Proof.
  induction s as [|c s IH]; [reflexivity|].
  rewrite !append_String, IH. reflexivity.
Qed.

Lemma list_ascii_length (s : string) :
  length (list_ascii_of_string s) = String.length s.
Proof. induction s as [|c s IH]; simpl; [reflexivity | rewrite IH; reflexivity]. Qed.

Lemma delimited_length word lbl :
  delimited word lbl -> String.length word + 2 <= String.length lbl.
Proof.
  intros (pre & a & mid & b & post & -> & _ & _ & Hm).
  apply (f_equal (@length ascii)) in Hm.
  rewrite !length_map, !list_ascii_length in Hm.
  rewrite string_length_append. simpl. rewrite string_length_append. simpl. lia.
Qed.

Lemma delimited_context word lbl pre post :
  delimited word lbl -> delimited word (pre +:+ lbl +:+ post).
Proof.
  intros (p & a & mid & b & q & -> & Ha & Hb & Hm).
  exists (pre +:+ p), a, mid, b, (q +:+ post).
  split; [|auto].
  rewrite (string_append_assoc pre p), (string_append_assoc p).
  rewrite append_String, (string_append_assoc mid), append_String.
  reflexivity.
Qed.

(** X17: what the headset patterns accept does not depend on the case of
    the letters of a label; a label they accept has at least six
    characters, the word and a character on either side of it; and it is
    still accepted inside any longer label. *)
Theorem X17_hmd_patterns lbl :
  matches_hmd (upcase lbl) = matches_hmd lbl /\
  (forall lbl', upcase lbl' = upcase lbl -> matches_hmd lbl' = matches_hmd lbl) /\
  (matches_hmd lbl = true -> 6 <= String.length lbl) /\
  (matches_hmd lbl = true ->
   forall pre post, matches_hmd (pre +:+ lbl +:+ post) = true).
Proof.
  assert (Hu : forall s, matches_hmd (upcase s) = matches_hmd s).
  { intros s. unfold matches_hmd, HMD_MIC_REGEXES, Regex.test.
    cbn [existsb Regex.ignoreCase Regex.atoms].
    rewrite !search_upcase. reflexivity. }
  split; [apply Hu|]. split; [|split].
  - intros lbl' E. rewrite <- (Hu lbl'), E. apply Hu.
  - intros H. apply matches_hmd_spec in H as [H | H];
      apply delimited_length in H; simpl in H; lia.
  - intros H pre post. apply matches_hmd_spec.
    apply matches_hmd_spec in H as [H | H]; [left | right];
      apply delimited_context, H.
Qed.

Lemma X17_hmd_patterns_witness :
  matches_hmd "Microphone (HTC Vive)" = true /\
  matches_hmd "MICROPHONE (HTC VIVE)" = true /\
  matches_hmd ("USB: " +:+ "Microphone (HTC Vive)" +:+ " #2") = true.
Proof.
  pose proof (X17_hmd_patterns "Microphone (HTC Vive)") as (Hu & _ & _ & Hc).
  split; [reflexivity|]. split.
  - change (matches_hmd (upcase "Microphone (HTC Vive)") = true).
    rewrite Hu. reflexivity.
  - apply Hc. reflexivity.
Defined.

(** ** What a switch of device leaves capturing *)

Lemma stopped_all_dead w i st :
  (forall j, is_live w j -> exists t, audioTrack w = Some t /\ track_id t = j) ->
  stopped w !! i = Some st -> live st = false.
Proof.
  intros Honly H. unfold stopped in H.
  destruct (live st) eqn:L; [exfalso|reflexivity].
  destruct (audioTrack w) as [t|] eqn:Ha.
  - destruct (decide (track_id t = i)) as [<-|Hne].
    + rewrite list_lookup_alter_eq in H.
      destruct (tracks w !! track_id t); simpl in H; [|discriminate].
      injection H as <-. simpl in L. discriminate.
    + rewrite list_lookup_alter_ne in H by exact Hne.
      destruct (Honly i) as (t' & Ht' & Hid); [exists st; auto|].
      congruence.
  - destruct (Honly i) as (t' & Ht' & _); [exists st; auto|].
    discriminate.
Qed.

(** X18: when no track but the active one is capturing at the call of
    [fetchAudioTrack], no track is capturing once the request is issued, the
    active track having been stopped.  When the request then settles before
    anything else runs, the new track is the one capturing track if the
    capture was granted; if it was rejected no track is capturing, so that a
    failed switch has ended the running capture too, the manager reports no
    selected device and the remembered device id is as it was. *)
Theorem X18_switch_outcome pf w arg r :
  valid_arg arg w ->
  (forall i, is_live w i -> exists t, audioTrack w = Some t /\ track_id t = i) ->
  let w' := snd (fetchAudioTrack pf arg r w) in
  (forall i, ~ is_live (snd (fetchAudioTrack_request pf arg w)) i) /\
  (forall lbl, r = Granted lbl ->
     forall i, is_live w' i <-> i = length (tracks w)) /\
  (forall e, r = Rejected e ->
     (forall i, ~ is_live w' i) /\
     isAudioDeviceSelected w' = false /\
     (forall t, audioTrack w = Some t ->
                stops (trace w') = t :: stops (trace w)) /\
     lastUsedMicDeviceId w' = lastUsedMicDeviceId w).
Proof.
  intros Hv Honly w'.
  pose proof (fetch_audioTrack pf arg r w) as Ha. fold w' in Ha.
  pose proof (fetch_tracks pf arg r w) as Ht. fold w' in Ht.
  split; [|split].
  - intros i (st & H & L). rewrite fetch_request_tracks in H.
    rewrite (stopped_all_dead w i st Honly H) in L. discriminate.
  - intros lbl ->. intros i. unfold is_live. rewrite Ht. split.
    + intros (st & H & L).
      apply lookup_app_Some in H as [H | [Hle H]].
      * rewrite (stopped_all_dead w i st Honly H) in L. discriminate.
      * rewrite stopped_length in *.
        apply list_lookup_singleton_Some in H as [H _]. lia.
    + intros ->. eexists. split.
      * apply list_lookup_middle. rewrite stopped_length. reflexivity.
      * reflexivity.
  - intros e ->. split.
    { intros i (st & H & L). rewrite Ht in H.
      rewrite (stopped_all_dead w i st Honly H) in L. discriminate. }
    split; [unfold isAudioDeviceSelected; rewrite Ha; reflexivity|].
    split.
    { intros t Hat. unfold w'. rewrite fetch_trace by exact Hv.
      rewrite stops_app, fetch_events_stops, Hat. reflexivity. }
    apply (fetch_frame pf arg (Rejected e) w).
Qed.

Lemma X18_switch_outcome_witness :
  valid_arg None after_grant /\
  (forall i, is_live after_grant i ->
     exists t, audioTrack after_grant = Some t /\ track_id t = i) /\
  is_live after_grant 0 /\
  (forall i, ~ is_live after_denial i) /\
  isAudioDeviceSelected after_denial = false.
Proof.
  assert (V : valid_arg None after_grant) by (intros l H; discriminate).
  assert (O : forall i, is_live after_grant i ->
                exists t, audioTrack after_grant = Some t /\ track_id t = i).
  { intros i (st & H & _). destruct i as [|i].
    - eexists. split; reflexivity.
    - destruct i; discriminate. }
  split; [exact V|]. split; [exact O|].
  split; [exists unhooked; split; reflexivity|].
  pose proof (X18_switch_outcome desktop after_grant None
                (Rejected NotAllowedError) V O) as H.
  cbv zeta in H. destruct H as (_ & _ & H).
  destruct (H NotAllowedError eq_refl) as (Hd & Hs & _).
  split; [exact Hd | exact Hs].
Defined.
